(* ===== verification/_CoqProject ===== *)
-Q . S2P
Prelude.v
JsMap.v
Types.v
Lcs.v
Resolver.v
GetMovedSegments.v
DiffPlaylist.v
Parse.v
