(* ===== verification/Prelude.v ===== *)
(** * Verification of the playlist differ of tv2-inews-ftp-gateway

    ** The program

    The gateway turns the stories of an iNews rundown into segments and
    reconciles two snapshots of the playlist.  Two source files are verified:

    - [src/src/helpers/DiffPlaylist.ts]: the change vocabulary
      ([PlaylistChangeType], the six [PlaylistChange...] interfaces and their
      union [PlaylistChange]) and the function [DiffPlaylist(playlist,
      previous)], which runs two loops.  The first loop walks [previous] and
      reports every rundown that [playlist] no longer holds; the second walks
      [playlist], reports every rundown that [previous] did not hold, and for
      a rundown held by both calls [GetMovedSegments] on the two segment
      orders, pushes one record per moved, inserted and deleted segment (in
      that order) and stores the four lists in the [segmentChanges] map.
    - [src/src/classes/ParsedINewsToSegments.ts]: [IParsedElement] and
      [ParsedINewsIntoSegments.parse], which maps the raw stories to
      [RundownSegment]s, the rank of a segment being the length of the array
      built so far.

    [GetMovedSegments], the id types, [ResolvedPlaylist], [RundownSegment]
    and [IRawStory] are imported by these files and are not part of the
    sources.  They are modelled from the specification ([spec.md], sections 3,
    4.1 and 6) and are marked so in the manifest.

    ** The files

    - [Prelude] (this file): the JavaScript operations the sources call on
      arrays and optional strings ([js_push], [js_find], [js_forEach],
      [js_or]) with their laws, the [SetUnfoldElemOf] instance that lets
      [set_solver] see through [filter] on lists, the hint databases and
      tactics of the development, lemmas on [sublist], [filter] and [NoDup]
      that several components share, and [first_occurrences], the order in
      which a [Map] lists keys set in the order of a list.
    - [JsMap]: the insertion-ordered [Map] of JavaScript as an association
      list with unique keys: [JsMap.set] replaces in place or appends,
      [JsMap.get] reads, [JsMap.set_list] is a loop of [set]s.  Its
      invariant ([JsMap.wf]) is preserved by every operation;
      [JsMap.to_gmap] is an abstraction function to stdpp's [gmap] under
      which [set] is [insert] and [get] is lookup; [JsMap.same_entries]
      ([≡ₘ]) identifies maps up to insertion order, with [Proper] instances
      for the operations.
    - [Types]: [RundownId], [SegmentId], [ResolvedPlaylistRundown],
      [ResolvedPlaylist], the record [SegmentChanges] of the four lists, the
      enumeration [PlaylistChangeType] with its numeric values and the tagged
      union [PlaylistChange] with its three fields as projections;
      [wf_playlist], the uniqueness invariant of section 3 of the
      specification.
    - [Lcs]: longest common subsequences of two lists ([is_lcs]): the
      reference function [lcs], its length [lcs_len], the
      dynamic-programming table [lcs_table] built row by row ([lcs_row]) and
      the walk [lcs_backtrack] over it; the theorems that [lcs] is a common
      subsequence, that none is longer, that the table holds the lengths
      ([lcs_table_spec]) and that the walk returns [lcs] ([lcs_dp_lcs]).
    - [Resolver]: the interface between the differ and the move-set resolver:
      the class [MoveSetResolver] (one operation, [resolve]) and the class
      [ResolverLaws] that states the contract of section 4.1 of the
      specification (membership of the four lists, disjointness, [notMoved] a
      longest common subsequence).  The consequences every client uses
      ([resolve_self], [resolve_partitions], [resolve_moved_length]) are
      and its converse [resolve_silent] are proved from the laws alone.
    - [GetMovedSegments]: the resolver of the specification, built on the
      table and the walk of [Lcs], the proof that it satisfies
      [ResolverLaws], and the variant [GetMovedSegmentsNewFirst] with the
      other tie-break, which satisfies them too.
    - [DiffPlaylist]: the two loop bodies ([deletedRundownStep],
      [currentRundownStep]), the loops as [js_forEach] over the state
      [DiffResult], and [DiffPlaylist] itself, parameterised by the resolver it
      calls.  The theorems are proved against [ResolverLaws], and instantiated
      with [GetMovedSegments] for the witnesses and the end-to-end statements.
    - [Parse]: [IParsedElement], [RundownSegment], [IRawStory] and
      [ParsedINewsIntoSegments.parse] as the loop it is, with its closed form.

    ** Correspondence with the code

    An array is a [list]; [push] appends at the end; [forEach] and [for ..
    of] are left folds in array order; [find] returns the first element that
    satisfies the predicate, or [None] for [undefined]; [!x] on the result of
    [find] is the test for [None] (an object is never falsy).  Strings are
    [string]; [===] on strings is decidable equality.  [a || ''] on an
    optional string is [js_or a ""].  A [Map] is a [JsMap.t]: iteration order
    is insertion order and [set] on a key that is present keeps its position.
    Array lengths and ranks are [nat]: the sources never compute with them
    beyond [segments.length].

    ** What the theorems show

    - _Functional behaviour_ of [DiffPlaylist]: closed forms of [changes] and
      of [segmentChanges] (every branch of both loops), the records and the
      entry of a rundown that is created, deleted or held by both, the order
      of emission, and the keys of the map in insertion order.
    - _Completeness and exclusiveness_: for any input, duplicate ids
      included, every rundown id of either snapshot has exactly one entry in
      [segmentChanges], at the place of its first insertion
      ([DiffPlaylist_keys_first]); rundown-level and segment-level records
      never concern the same rundown; the log and the summary of a rundown
      agree ([DiffPlaylist_changes_summary]).
    - _Partition_: for a rundown held by both snapshots the four lists are
      pairwise disjoint and cover the ids of both segment orders.
    - _Minimality_: [notMovedSegments] is a longest common subsequence, and
      the number of [SegmentMoved] records is the number of common ids less
      its length.
    - _No-op and its converse_: diffing a snapshot with unique rundown ids
      against itself yields no change; for well-formed snapshots [changes] is
      empty exactly when the snapshots hold the same rundowns up to their
      order ([DiffPlaylist_changes_nil]); the hypothesis on ids is necessary
      ([DiffPlaylist_self_duplicate]).
    - _No repetition, and undo_: for well-formed snapshots no record is
      pushed twice ([DiffPlaylist_changes_NoDup]); exchanging the snapshots
      exchanges creation and deletion ([DiffPlaylist_reverse]).
    - _Soundness for the consumer_: the ids of the new snapshot are those of
      the previous one less the deleted plus the created, for rundowns and
      for the segments of a rundown.
    - _Order independence_: permuting the rundowns of the snapshots permutes
      [changes] and keeps the entries of [segmentChanges].
    - _Safety_: [PlaylistChangeSegmentChanged] is never emitted.
    - _Refinement_: [JsMap.wf] is an invariant of the map the differ builds,
      and the map read as a [gmap] is the specification [summarySpec].
    - _Equivalence_: the table and the walk compute the reference [lcs]; the
      loop of [parse] is its closed form.
    - _Parse_: length, order, ranks [0 .. n-1], defaults of the optional
      fields, and when external ids are unique
      ([parse_externalId_NoDup]) or collide ([parse_externalId_collide]).

    The theorems whose comment begins with an identifier [C<n>] are the
    properties the development is kept for; each is proved from the lemmas
    around it and no other proof uses it.  Those of the section
    [differ_laws] assume of the resolver the contract [ResolverLaws] and
    nothing else; the others hold for any function in place of the resolver.
    [GetMovedSegments_laws] discharges the assumption for the resolver of
    the specification, and the witnesses instantiate the theorems with it on
    the snapshots of the specification's examples.

    ** Bounds and fuel

    No definition uses fuel: every loop of the sources ranges over an array
    and is a structural fold; [lcs], [lcs_len] and [lcs_backtrack] are
    nested structural fixpoints (the outer on the first list, the inner on
    the second), so they are total and evaluate by [vm_compute].

    ** Not modelled

    The network, FTP and persistence layers of the gateway, and the consumer
    of the change-set, are outside the two source files.  Object identity of
    the story stored in a segment is not modelled: a segment holds the story
    value. *)

From stdpp Require Export base tactics option list strings gmap ssreflect.

#[export] Set Warnings "-rewrite-rw,-clear-no-such-hyp".

(** ** Hint databases

    [gateway] collects the lemmas that [eauto] may apply to close side
    conditions; [gateway_rw] collects the closed forms of the loops, used by
    [autorewrite]. *)
Create HintDb gateway.
Create Rewrite HintDb gateway_rw.

(** ** JavaScript array operations *)

Section js_array.
Context {A : Type}.
Implicit Types (l k : list A) (x y : A).

(** [arr.push(x)]: append at the end. *)
Definition js_push l x : list A := l ++ [x].

(** [arr.find(p)]: the first element that satisfies [p], if any. *)
Definition js_find (P : A → Prop) `{!∀ x, Decision (P x)} l : option A :=
  snd <$> list_find P l.

(** [arr.forEach(body)] and [for (x of arr) body], threading the state the
    body mutates. *)
Definition js_forEach {S : Type} (body : S → A → S) l (s : S) : S :=
  foldl body s l.

Lemma js_find_nil (P : A → Prop) `{!∀ x, Decision (P x)} :
  js_find P [] = None.
Proof. done. Qed.

Lemma js_find_cons (P : A → Prop) `{!∀ x, Decision (P x)} x l :
  js_find P (x :: l) = if decide (P x) then Some x else js_find P l.
Proof.
  rewrite /js_find /=. case_decide; [done|].
  by destruct (list_find P l) as [[??]|].
Qed.

Lemma js_find_Some (P : A → Prop) `{!∀ x, Decision (P x)} l x :
  js_find P l = Some x → x ∈ l ∧ P x.
Proof.
  induction l as [|y l IH]; [done|]. rewrite js_find_cons.
  case_decide; [intros [= ->]|]; set_solver.
Qed.

Lemma js_find_None (P : A → Prop) `{!∀ x, Decision (P x)} l :
  js_find P l = None ↔ ∀ x, x ∈ l → ¬ P x.
Proof.
  rewrite /js_find fmap_None list_find_None Forall_forall. done.
Qed.

Lemma js_find_is_Some (P : A → Prop) `{!∀ x, Decision (P x)} l :
  is_Some (js_find P l) ↔ ∃ x, x ∈ l ∧ P x.
Proof.
  split.
  - intros [x ?%js_find_Some]. eauto.
  - intros (x & Hx & HP). apply not_eq_None_Some. rewrite js_find_None.
    naive_solver.
Qed.

Lemma js_find_app (P : A → Prop) `{!∀ x, Decision (P x)} l k :
  js_find P (l ++ k) =
  match js_find P l with Some x => Some x | None => js_find P k end.
Proof.
  induction l as [|y l IH]; [done|]. rewrite /= !js_find_cons.
  by case_decide.
Qed.

Lemma js_forEach_nil {S} (body : S → A → S) s : js_forEach body [] s = s.
Proof. done. Qed.

Lemma js_forEach_cons {S} (body : S → A → S) x l s :
  js_forEach body (x :: l) s = js_forEach body l (body s x).
Proof. done. Qed.

Lemma js_forEach_app {S} (body : S → A → S) l k s :
  js_forEach body (l ++ k) s = js_forEach body k (js_forEach body l s).
Proof. apply foldl_app. Qed.

Lemma js_forEach_snoc {S} (body : S → A → S) l x s :
  js_forEach body (l ++ [x]) s = body (js_forEach body l s) x.
Proof. apply foldl_snoc. Qed.

(** A property of the state that every iteration preserves holds after the
    loop. *)
Lemma js_forEach_invariant {S} (I : S → Prop) (body : S → A → S) l s :
  (∀ s x, x ∈ l → I s → I (body s x)) → I s → I (js_forEach body l s).
Proof.
  revert s. induction l as [|x l IH]; intros s Hstep Hs; [done|].
  rewrite js_forEach_cons. apply IH; [|apply Hstep]; set_solver.
Qed.

End js_array.

(** The loop [l.forEach(x => acc.push(f x))] appends the image of [l]. *)
Lemma js_forEach_push {A B} (f : A → B) (l : list A) (acc : list B) :
  js_forEach (λ acc x, js_push acc (f x)) l acc = acc ++ (f <$> l).
Proof.
  revert acc. induction l as [|x l IH]; intros acc.
  - by rewrite /= app_nil_r.
  - by rewrite js_forEach_cons IH /js_push -assoc.
Qed.

#[export] Hint Rewrite @js_forEach_push @js_forEach_nil : gateway_rw.

(** ** Lists: membership through [filter], sublists, duplicates *)

#[export] Instance set_unfold_list_filter {A} (P : A → Prop)
    `{!∀ x, Decision (P x)} (l : list A) x Q P' :
  SetUnfoldElemOf x l Q → SetUnfold (P x) P' →
  SetUnfoldElemOf x (filter P l) (P' ∧ Q).
Proof. intros [HQ] [HP]. constructor. by rewrite list_elem_of_filter HQ HP. Qed.

Section lists.
Context {A : Type}.
Implicit Types (l k s : list A) (x : A).

Lemma filter_all (P : A → Prop) `{!∀ x, Decision (P x)} l :
  (∀ x, x ∈ l → P x) → filter P l = l.
Proof.
  induction l as [|x l IH]; intros Hall; [done|].
  rewrite filter_cons_True; [|set_solver]. f_equal. apply IH. set_solver.
Qed.

Lemma filter_none (P : A → Prop) `{!∀ x, Decision (P x)} l :
  (∀ x, x ∈ l → ¬ P x) → filter P l = [].
Proof.
  induction l as [|x l IH]; intros Hall; [done|].
  rewrite filter_cons_False; [|set_solver]. apply IH. set_solver.
Qed.

(** A sublist whose elements all satisfy [P] survives the filter. *)
Lemma sublist_filter_all (P : A → Prop) `{!∀ x, Decision (P x)} s l :
  s `sublist_of` l → (∀ x, x ∈ s → P x) → s `sublist_of` filter P l.
Proof.
  induction 1 as [|x s l _ IH|x s l _ IH]; intros HP.
  - done.
  - rewrite filter_cons_True; [|set_solver].
    apply sublist_skip, IH. set_solver.
  - rewrite filter_cons. case_decide; [apply sublist_cons|]; by apply IH.
Qed.

(** A sublist as long as the list is the list. *)
Lemma sublist_length_eq s l :
  s `sublist_of` l → length l ≤ length s → s = l.
Proof.
  induction 1 as [|x s l _ IH|x s l Hs IH]; simpl; intros Hlen.
  - done.
  - f_equal. apply IH. lia.
  - apply sublist_length in Hs. lia.
Qed.

(** A sublist of a duplicate-free list that holds all its elements is the
    list. *)
Lemma sublist_all_elem s l :
  NoDup l → s `sublist_of` l → (∀ x, x ∈ l → x ∈ s) → s = l.
Proof.
  intros Hnd Hs Hall. apply sublist_length_eq; [done|].
  by apply submseteq_length, NoDup_submseteq.
Qed.

Lemma nil_no_elem l : (∀ x, x ∉ l) → l = [].
Proof. destruct l as [|x l]; [done|]. intros H. destruct (H x). set_solver. Qed.

(** Filters with equivalent predicates agree. *)
Lemma filter_iff (P Q : A → Prop) `{!∀ x, Decision (P x)}
    `{!∀ x, Decision (Q x)} l :
  (∀ x, x ∈ l → P x ↔ Q x) → filter P l = filter Q l.
Proof.
  induction l as [|x l IH]; intros Hiff; [done|].
  rewrite !filter_cons IH; [|set_solver].
  specialize (Hiff x ltac:(set_solver)). repeat case_decide; tauto || done.
Qed.

End lists.

#[export] Hint Resolve sublist_filter sublist_nil_l : gateway.

(** ** First occurrences

    The elements of a list in the order in which they first occur: the order
    in which a JavaScript [Map] lists keys that were set in the order of the
    list. *)

Section first_occurrences.
Context {A : Type} `{!EqDecision A}.
Implicit Types (l : list A) (x : A).

Definition first_occurrences l : list A := reverse (remove_dups (reverse l)).

Lemma first_occurrences_nil : first_occurrences [] = [].
Proof. done. Qed.

Lemma first_occurrences_snoc l x :
  first_occurrences (l ++ [x]) =
  if decide (x ∈ l) then first_occurrences l else first_occurrences l ++ [x].
Proof.
  rewrite /first_occurrences reverse_snoc /=.
  destruct (decide_rel _ x (reverse l)) as [Hx|Hx]; rewrite elem_of_reverse in Hx.
  - by rewrite decide_True.
  - by rewrite decide_False // reverse_cons.
Qed.

Lemma elem_of_first_occurrences l x : x ∈ first_occurrences l ↔ x ∈ l.
Proof.
  by rewrite /first_occurrences elem_of_reverse elem_of_remove_dups
    elem_of_reverse.
Qed.

Lemma NoDup_first_occurrences l : NoDup (first_occurrences l).
Proof.
  rewrite /first_occurrences reverse_Permutation. apply NoDup_remove_dups.
Qed.

(** A list without duplicates is the list of its first occurrences. *)
Lemma first_occurrences_NoDup l : NoDup l → first_occurrences l = l.
Proof.
  induction l as [|x l IH] using rev_ind; [done|].
  rewrite NoDup_app first_occurrences_snoc. intros (Hl & Hx & _).
  rewrite decide_False; [|set_solver]. by rewrite IH.
Qed.

Lemma first_occurrences_Permutation l :
  first_occurrences l ≡ₚ remove_dups l.
Proof.
  apply NoDup_Permutation;
    [apply NoDup_first_occurrences|apply NoDup_remove_dups|].
  intros x. by rewrite elem_of_first_occurrences elem_of_remove_dups.
Qed.

End first_occurrences.

#[export] Hint Resolve NoDup_first_occurrences : gateway.

(** ** Lookup by key

    The sources look a record up by a field ([p.rundownId === id]). *)

Section find_by_key.
Context {A K : Type} `{!EqDecision K} (key : A → K).
Implicit Types (l : list A) (x : A) (k : K).

Lemma js_find_key_Some l k x :
  js_find (λ y, key y = k) l = Some x → x ∈ l ∧ key x = k.
Proof. intros H. by apply (js_find_Some (λ y, key y = k)) in H. Qed.

Lemma js_find_key_None l k :
  js_find (λ y, key y = k) l = None ↔ k ∉ key <$> l.
Proof. rewrite js_find_None. set_solver. Qed.

Lemma js_find_key_is_Some l k :
  is_Some (js_find (λ y, key y = k) l) ↔ k ∈ key <$> l.
Proof. rewrite js_find_is_Some. set_solver. Qed.

(** With unique keys the lookup of an element's key returns that element. *)
Lemma js_find_key_unique l x :
  NoDup (key <$> l) → x ∈ l → js_find (λ y, key y = key x) l = Some x.
Proof.
  induction l as [|y l IH]; [set_solver|].
  rewrite fmap_cons NoDup_cons js_find_cons. intros [Hy Hl] Hx.
  case_decide as Heq.
  - apply elem_of_cons in Hx as [->|Hx]; [done|].
    destruct Hy. rewrite Heq. set_solver.
  - apply IH; set_solver.
Qed.

(** With unique keys an element is determined by its key. *)
Lemma key_unique_inj l x y :
  NoDup (key <$> l) → x ∈ l → y ∈ l → key x = key y → x = y.
Proof.
  intros Hnd Hx%(js_find_key_unique _ _ Hnd) Hy%(js_find_key_unique _ _ Hnd) Heq.
  rewrite Heq in Hx. congruence.
Qed.

(** With unique keys the lookup does not depend on the order of the list. *)
Lemma js_find_key_Permutation l l' k :
  NoDup (key <$> l) → l ≡ₚ l' →
  js_find (λ y, key y = k) l' = js_find (λ y, key y = k) l.
Proof.
  intros Hnd Hperm. destruct (js_find (λ y, key y = k) l) as [x|] eqn:E.
  - apply js_find_key_Some in E as [Hx <-]. apply js_find_key_unique.
    + by rewrite -Hperm.
    + by rewrite -Hperm.
  - apply js_find_key_None. apply js_find_key_None in E. by rewrite -Hperm.
Qed.

(** In particular the first and the last element with a key are the same. *)
Lemma js_find_key_reverse l k :
  NoDup (key <$> l) →
  js_find (λ y, key y = k) (reverse l) = js_find (λ y, key y = k) l.
Proof.
  intros. apply js_find_key_Permutation; [done|]. by rewrite reverse_Permutation.
Qed.

(** With unique keys exactly one element has a given element's key. *)
Lemma filter_key_unique l x :
  NoDup (key <$> l) → x ∈ l → filter (λ y, key y = key x) l = [x].
Proof.
  induction l as [|y l IH]; [set_solver|].
  rewrite fmap_cons NoDup_cons filter_cons. intros [Hy Hl] Hx.
  case_decide as Heq.
  - apply elem_of_cons in Hx as [->|Hx]; [|destruct Hy; rewrite Heq; set_solver].
    f_equal. apply filter_none. set_solver.
  - apply IH; set_solver.
Qed.

Lemma filter_key_absent l k : k ∉ key <$> l → filter (λ y, key y = k) l = [].
Proof. intros. apply filter_none. set_solver. Qed.

(** Filtering the concatenated images of [f] by a key that is constant on
    each image filters the arguments. *)
Lemma filter_bind_key {B} (f : A → list B) (g : B → K) l k :
  (∀ x, x ∈ l → Forall (λ c, g c = key x) (f x)) →
  filter (λ c, g c = k) (l ≫= f) = filter (λ x, key x = k) l ≫= f.
Proof.
  induction l as [|x l IH]; intros Hf; [done|].
  rewrite bind_cons filter_app filter_cons IH; [|set_solver].
  specialize (Hf x ltac:(set_solver)). rewrite Forall_forall in Hf.
  case_decide; subst.
  - rewrite bind_cons filter_all //.
  - rewrite filter_none //. intros c ?%Hf. congruence.
Qed.

Lemma filter_fmap_key {B} (f : A → B) (g : B → K) l k :
  (∀ x, x ∈ l → g (f x) = key x) →
  filter (λ c, g c = k) (f <$> l) = f <$> filter (λ x, key x = k) l.
Proof.
  induction l as [|x l IH]; intros Hf; [done|].
  rewrite fmap_cons !filter_cons Hf; [|set_solver]. rewrite IH; [|set_solver].
  by case_decide.
Qed.

End find_by_key.

(** ** Optional strings

    [s || d] on an optional string: [undefined] and the empty string are
    falsy. *)

Definition js_truthy (s : string) : bool := bool_decide (s ≠ "").

Definition js_or (o : option string) (d : string) : string :=
  match o with
  | Some s => if js_truthy s then s else d
  | None => d
  end.

Lemma js_or_empty o : js_or o "" = default "" o.
Proof.
  destruct o as [s|]; [|done]. rewrite /= /js_truthy.
  case_bool_decide; [done|]. by destruct (decide (s = "")).
Qed.

Lemma js_or_Some s d : s ≠ "" → js_or (Some s) d = s.
Proof. intros. by rewrite /= /js_truthy bool_decide_eq_true_2. Qed.

(** ** Tactics *)

(** [case_js_find]: case analysis on a [js_find] of the goal, keeping the
    equation and, in the [Some] case, what it says of the element found. *)
Ltac case_js_find :=
  match goal with
  | |- context [js_find ?P ?l] =>
      let E := fresh "Hfind" in
      let x := fresh "found" in
      destruct (js_find P l) as [x|] eqn:E;
      [pose proof (js_find_Some _ _ _ E) as [? ?]|]
  end.
