(* ===== verification/JsMap.v ===== *)
(** * The insertion-ordered [Map] of JavaScript

    [segmentChanges] of [DiffPlaylist] is a [Map<RundownId, ...>].  A
    JavaScript [Map] iterates in insertion order, and [set] on a key that is
    already present replaces the value where the key stands.  The model is an
    association list whose keys are unique ([wf]); [to_gmap] forgets the
    order and is the abstraction to stdpp's [gmap], under which [set] is
    [insert] and [get] is lookup. *)

From S2P Require Import Prelude.

Module JsMap.

Definition t (K V : Type) : Type := list (K * V).

Section ops.
Context {K V : Type} `{!EqDecision K}.
Implicit Types (m : t K V) (k : K) (v : V).

(** [new Map()] *)
Definition empty : t K V := [].

(** [m.set(k, v)] *)
Fixpoint set k v m : t K V :=
  match m with
  | [] => [(k, v)]
  | (k', v') :: m' =>
      if decide (k = k') then (k, v) :: m' else (k', v') :: set k v m'
  end.

(** [m.get(k)], [None] for [undefined] *)
Fixpoint get k m : option V :=
  match m with
  | [] => None
  | (k', v') :: m' => if decide (k = k') then Some v' else get k m'
  end.

(** [m.has(k)] *)
Definition has k m : bool := bool_decide (is_Some (get k m)).

(** [[...m.keys()]], in iteration order *)
Definition keys m : list K := m.*1.

(** [m.size] *)
Definition size m : nat := length m.

(** The representation invariant: a key occurs once. *)
Definition wf m : Prop := NoDup (keys m).

#[global] Instance wf_dec m : Decision (wf m).
Proof. rewrite /wf. apply _. Defined.

(** *** [get] and [set] *)

Lemma get_empty k : get k empty = None.
Proof. done. Qed.

Lemma get_set k k' v m :
  get k' (set k v m) = if decide (k' = k) then Some v else get k' m.
Proof.
  induction m as [|[k0 v0] m IH]; simpl; repeat (case_decide; simpl);
    simplify_eq; try done.
  all: rewrite IH; by case_decide.
Qed.

Lemma get_set_eq k v m : get k (set k v m) = Some v.
Proof. rewrite get_set. by case_decide. Qed.

Lemma get_set_ne k k' v m : k' ≠ k → get k' (set k v m) = get k' m.
Proof. intros. rewrite get_set. by case_decide. Qed.

Lemma get_Some_elem k v m : get k m = Some v → (k, v) ∈ m.
Proof.
  induction m as [|[k0 v0] m IH]; simpl; [done|].
  case_decide; [intros [= ->]; subst|]; set_solver.
Qed.

Lemma get_is_Some k m : is_Some (get k m) ↔ k ∈ keys m.
Proof.
  rewrite /keys. induction m as [|[k0 v0] m IH]; simpl.
  - rewrite elem_of_nil. split; [by intros [??]|done].
  - rewrite elem_of_cons /=. case_decide; [naive_solver|]. rewrite IH.
    naive_solver.
Qed.

Lemma get_None k m : get k m = None ↔ k ∉ keys m.
Proof. rewrite -get_is_Some -eq_None_not_Some. done. Qed.

Lemma has_spec k m : has k m = true ↔ k ∈ keys m.
Proof. rewrite /has bool_decide_eq_true. apply get_is_Some. Qed.

(** With unique keys membership of a pair is [get]. *)
Lemma elem_get k v m : wf m → (k, v) ∈ m → get k m = Some v.
Proof.
  rewrite /wf /keys. induction m as [|[k0 v0] m IH]; [set_solver|].
  rewrite fmap_cons NoDup_cons elem_of_cons /=. intros [Hk Hm] [[= -> ->]|Hin].
  - by case_decide.
  - case_decide; [|by apply IH]. subst. destruct Hk.
    apply list_elem_of_fmap. by exists (k0, v).
Qed.

(** *** Keys: [set] keeps the position of a present key and appends a new
    one. *)

Lemma keys_set_present k v m : k ∈ keys m → keys (set k v m) = keys m.
Proof.
  rewrite /keys. induction m as [|[k0 v0] m IH]; csimpl; [set_solver|].
  case_decide; simplify_eq; [done|].
  rewrite elem_of_cons. intros [?|?]; [done|]. csimpl. by rewrite IH.
Qed.

Lemma keys_set_fresh k v m : k ∉ keys m → keys (set k v m) = keys m ++ [k].
Proof.
  rewrite /keys. induction m as [|[k0 v0] m IH]; csimpl; [done|].
  rewrite not_elem_of_cons. intros [??]. case_decide; [done|].
  csimpl. by rewrite IH.
Qed.

Lemma keys_set k v m :
  keys (set k v m) = if decide (k ∈ keys m) then keys m else keys m ++ [k].
Proof.
  case_decide; [by apply keys_set_present|by apply keys_set_fresh].
Qed.

Lemma elem_of_keys_set k k' v m : k' ∈ keys (set k v m) ↔ k' = k ∨ k' ∈ keys m.
Proof. rewrite keys_set. case_decide; set_solver. Qed.

Lemma size_set k v m :
  size (set k v m) = if decide (k ∈ keys m) then size m else S (size m).
Proof.
  rewrite /size -!(length_fmap fst) -!/(keys _) keys_set.
  case_decide; [done|]. rewrite length_app /=. lia.
Qed.

(** *** The invariant *)

Lemma wf_empty : wf empty.
Proof. apply NoDup_nil_2. Qed.

Lemma wf_set k v m : wf m → wf (set k v m).
Proof.
  rewrite /wf keys_set. case_decide; [done|]. intros.
  apply NoDup_app. set_solver by eauto using NoDup_singleton.
Qed.

(** *** A sequence of [set]s, in order, as a loop performs them *)

Definition set_list (kvs : list (K * V)) m : t K V :=
  foldl (λ m kv, set kv.1 kv.2 m) m kvs.

Lemma set_list_nil m : set_list [] m = m.
Proof. done. Qed.

Lemma set_list_cons k v kvs m :
  set_list ((k, v) :: kvs) m = set_list kvs (set k v m).
Proof. done. Qed.

Lemma set_list_app kvs1 kvs2 m :
  set_list (kvs1 ++ kvs2) m = set_list kvs2 (set_list kvs1 m).
Proof. apply foldl_app. Qed.

Lemma set_list_snoc k v kvs m :
  set_list (kvs ++ [(k, v)]) m = set k v (set_list kvs m).
Proof. by rewrite set_list_app. Qed.

(** The last [set] of a key wins; a key never set keeps its value. *)
Lemma get_set_list k kvs m :
  get k (set_list kvs m) =
  match get k (reverse kvs) with Some v => Some v | None => get k m end.
Proof.
  induction kvs as [|[k' v'] kvs IH] using rev_ind; [done|].
  rewrite set_list_snoc get_set reverse_snoc /=. by case_decide.
Qed.

Lemma elem_of_keys_set_list k kvs m :
  k ∈ keys (set_list kvs m) ↔ k ∈ kvs.*1 ∨ k ∈ keys m.
Proof.
  induction kvs as [|[k' v'] kvs IH] using rev_ind; [set_solver|].
  rewrite set_list_snoc elem_of_keys_set IH fmap_app. set_solver.
Qed.

(** Fresh keys are appended in the order they are set. *)
Lemma keys_set_list kvs m :
  NoDup (keys m ++ kvs.*1) → keys (set_list kvs m) = keys m ++ kvs.*1.
Proof.
  induction kvs as [|[k' v'] kvs IH] using rev_ind; intros Hnd.
  - by rewrite /= app_nil_r.
  - rewrite fmap_app /= assoc in Hnd. apply NoDup_app in Hnd as (Hnd & Hk & _).
    rewrite set_list_snoc keys_set_fresh.
    + rewrite IH // fmap_app -assoc //.
    + rewrite elem_of_keys_set_list. intros Hin. apply (Hk k'); set_solver.
Qed.

(** In general a key stands where it was first set: the keys of a map built
    by a loop of [set]s are the first occurrences of the keys set. *)
Lemma keys_set_list_first kvs m :
  wf m → keys (set_list kvs m) = first_occurrences (keys m ++ kvs.*1).
Proof.
  intros Hwf. induction kvs as [|[k' v'] kvs IH] using rev_ind.
  - by rewrite /= app_nil_r first_occurrences_NoDup.
  - rewrite set_list_snoc keys_set IH fmap_app assoc first_occurrences_snoc.
    apply decide_ext, elem_of_first_occurrences.
Qed.

Lemma wf_set_list kvs m : wf m → wf (set_list kvs m).
Proof.
  induction kvs as [|[k' v'] kvs IH] using rev_ind; [done|].
  rewrite set_list_snoc. auto using wf_set.
Qed.

(** Setting fresh keys appends the entries as they are. *)
Lemma set_fresh k v m : k ∉ keys m → set k v m = m ++ [(k, v)].
Proof.
  rewrite /keys. induction m as [|[k0 v0] m IH]; csimpl; [done|].
  rewrite not_elem_of_cons. intros [??]. rewrite decide_False // IH //.
Qed.

Lemma set_list_fresh kvs m :
  NoDup (keys m ++ kvs.*1) → set_list kvs m = m ++ kvs.
Proof.
  induction kvs as [|[k' v'] kvs IH] using rev_ind; intros Hnd.
  - by rewrite /= app_nil_r.
  - rewrite fmap_app /= assoc in Hnd. apply NoDup_app in Hnd as (Hnd & Hk & _).
    rewrite set_list_snoc IH // set_fresh ?assoc //.
    rewrite /keys fmap_app. intros Hin. apply (Hk k'); set_solver.
Qed.

(** *** [get] on a list built from records by their key *)

Lemma get_Permutation k m1 m2 : wf m1 → m1 ≡ₚ m2 → get k m1 = get k m2.
Proof.
  intros Hwf Hperm.
  assert (wf m2) as Hwf2 by (by rewrite /wf /keys -Hperm).
  destruct (get k m1) as [v|] eqn:E1.
  - symmetry. apply elem_get; [done|]. rewrite -Hperm. by apply get_Some_elem.
  - symmetry. apply get_None. rewrite /keys -Hperm. by apply get_None.
Qed.

Lemma get_reverse k m : wf m → get k (reverse m) = get k m.
Proof.
  intros. symmetry. apply get_Permutation; [done|]. by rewrite reverse_Permutation.
Qed.

Lemma get_fmap {A} (key : A → K) (val : A → V) (l : list A) k :
  get k ((λ a, (key a, val a)) <$> l) = val <$> js_find (λ a, key a = k) l.
Proof.
  induction l as [|a l IH]; [done|]. rewrite fmap_cons js_find_cons /=.
  case_decide; simplify_eq; [by rewrite decide_True|].
  rewrite decide_False; [congruence|done].
Qed.

(** *** Maps with the same entries

    Two maps are equivalent when they hold the same value for every key,
    whatever the order of insertion. *)

Definition same_entries m1 m2 : Prop := ∀ k, get k m1 = get k m2.

#[global] Instance same_entries_equivalence : Equivalence same_entries.
Proof.
  split; [by intros m k|by intros m1 m2 H k|].
  intros m1 m2 m3 H12 H23 k. by rewrite H12.
Qed.

#[global] Instance get_proper k : Proper (same_entries ==> (=)) (get k).
Proof. by intros m1 m2 Hm. Qed.

#[global] Instance has_proper k : Proper (same_entries ==> (=)) (has k).
Proof. intros m1 m2 Hm. by rewrite /has (Hm k). Qed.

#[global] Instance set_proper k v :
  Proper (same_entries ==> same_entries) (set k v).
Proof. intros m1 m2 Hm k'. by rewrite !get_set (Hm k'). Qed.

#[global] Instance set_list_proper kvs :
  Proper (same_entries ==> same_entries) (set_list kvs).
Proof. intros m1 m2 Hm k. by rewrite !get_set_list (Hm k). Qed.

(** Setting two different keys commutes up to the order of the entries. *)
Lemma set_set_ne k1 k2 v1 v2 m :
  k1 ≠ k2 → same_entries (set k1 v1 (set k2 v2 m)) (set k2 v2 (set k1 v1 m)).
Proof. intros ? k. rewrite !get_set. by repeat case_decide; simplify_eq. Qed.

Lemma set_set_eq k v1 v2 m : same_entries (set k v1 (set k v2 m)) (set k v1 m).
Proof. intros k'. rewrite !get_set. by case_decide. Qed.

(** Maps with unique keys and the same pairs have the same entries. *)
Lemma same_entries_Permutation m1 m2 : wf m1 → m1 ≡ₚ m2 → same_entries m1 m2.
Proof. intros ?? k. by apply get_Permutation. Qed.

End ops.

(** *** Abstraction to [gmap] *)

Section abstraction.
Context {K V : Type} `{Countable K}.
Implicit Types (m : t K V) (k : K) (v : V).

Definition to_gmap m : gmap K V := list_to_map m.

Lemma to_gmap_empty : to_gmap (empty : t K V) = ∅.
Proof. done. Qed.

Lemma lookup_to_gmap m k : to_gmap m !! k = get k m.
Proof.
  rewrite /to_gmap. induction m as [|[k0 v0] m IH]; simpl; [done|].
  case_decide; subst; [by rewrite lookup_insert_eq|].
  by rewrite lookup_insert_ne.
Qed.

Lemma to_gmap_set k v m : to_gmap (set k v m) = <[k:=v]> (to_gmap m).
Proof.
  apply map_eq. intros k'. rewrite lookup_insert !lookup_to_gmap get_set.
  repeat case_decide; by simplify_eq.
Qed.

Lemma to_gmap_set_list kvs m :
  to_gmap (set_list kvs m) = to_gmap (reverse kvs) ∪ to_gmap m.
Proof.
  apply map_eq. intros k. rewrite lookup_union !lookup_to_gmap get_set_list.
  by destruct (get k (reverse kvs)), (get k m).
Qed.

Lemma dom_to_gmap m : dom (to_gmap m) = list_to_set (keys m).
Proof. apply dom_list_to_map_L. Qed.

Lemma size_to_gmap m : wf m → base.size (to_gmap m) = size m.
Proof. apply map_size_list_to_map. Qed.

(** Equivalent maps are the same [gmap]. *)
Lemma to_gmap_same_entries m1 m2 : same_entries m1 m2 ↔ to_gmap m1 = to_gmap m2.
Proof.
  split.
  - intros Hm. apply map_eq. intros k. by rewrite !lookup_to_gmap.
  - intros Hm k. by rewrite -!lookup_to_gmap Hm.
Qed.

#[global] Instance to_gmap_proper : Proper (same_entries ==> (=)) to_gmap.
Proof. intros m1 m2. apply to_gmap_same_entries. Qed.

End abstraction.

End JsMap.

Infix "≡ₘ" := JsMap.same_entries (at level 70, no associativity).

#[export] Hint Resolve JsMap.wf_empty JsMap.wf_set JsMap.wf_set_list : gateway.
#[export] Hint Rewrite @JsMap.get_set_eq @JsMap.get_empty : gateway_rw.
