(* ===== verification/Types.v ===== *)
(** * Data of the playlist differ

    The identifiers and snapshots the differ reads
    ([ResolvedPlaylistRundown], [ResolvedPlaylist]), the record of the four
    segment lists it stores per rundown ([SegmentChanges]), and the change
    vocabulary of [DiffPlaylist.ts]: the enumeration [PlaylistChangeType] and
    the union [PlaylistChange] of the six record shapes. *)

From S2P Require Import Prelude.

(** Identifiers are strings of the newsroom system, compared with [===]. *)
Abbreviation RundownId := string (only parsing).
Abbreviation SegmentId := string (only parsing).

(** One rundown of a snapshot: its id and the ids of its segments in air
    order.  [DiffPlaylist] reads [rundownId] and hands [segments] to the
    resolver as it is. *)
Record ResolvedPlaylistRundown : Type := mkRundown {
  rundownId : RundownId;
  segments : list SegmentId;
}.

Abbreviation ResolvedPlaylist := (list ResolvedPlaylistRundown) (only parsing).

#[export] Instance ResolvedPlaylistRundown_eq_dec :
  EqDecision ResolvedPlaylistRundown.
Proof. solve_decision. Defined.

(** The ids of a snapshot, in order. *)
Definition rundownIds (p : ResolvedPlaylist) : list RundownId :=
  rundownId <$> p.

(** Section 3 of the specification: rundown ids are unique in a snapshot and
    segment ids are unique in a rundown. *)
Definition wf_playlist (p : ResolvedPlaylist) : Prop :=
  NoDup (rundownIds p) ∧ Forall (λ r, NoDup (segments r)) p.

#[export] Instance wf_playlist_dec p : Decision (wf_playlist p).
Proof. rewrite /wf_playlist. apply _. Defined.

Lemma wf_playlist_NoDup p : wf_playlist p → NoDup p.
Proof. intros [Hids _]. by apply NoDup_fmap_1 in Hids. Qed.

Lemma wf_playlist_segments p r : wf_playlist p → r ∈ p → NoDup (segments r).
Proof. intros [_ Hsegs]. rewrite Forall_forall in Hsegs. apply Hsegs. Qed.

(** A rundown is its id and its segment order. *)
Lemma rundown_eq r r' :
  rundownId r = rundownId r' → segments r = segments r' → r = r'.
Proof. destruct r, r'; simpl; congruence. Qed.

(** The value type of the [segmentChanges] map. *)
Record SegmentChanges : Type := mkSegmentChanges {
  movedSegments : list SegmentId;
  notMovedSegments : list SegmentId;
  insertedSegments : list SegmentId;
  deletedSegments : list SegmentId;
}.

#[export] Instance SegmentChanges_eq_dec : EqDecision SegmentChanges.
Proof. solve_decision. Defined.

(** Every id a summary mentions. *)
Definition allSegments (sc : SegmentChanges) : list SegmentId :=
  movedSegments sc ++ notMovedSegments sc ++
  insertedSegments sc ++ deletedSegments sc.

(** ** The change vocabulary *)

Module PlaylistChangeType.

Inductive t : Type :=
  | PlaylistChangeSegmentDeleted
  | PlaylistChangeSegmentCreated
  | PlaylistChangeSegmentChanged
  | PlaylistChangeSegmentMoved
  | PlaylistChangeRundownDeleted
  | PlaylistChangeRundownCreated.

(** The number a TypeScript numeric enum gives each member. *)
Definition value (ty : t) : nat :=
  match ty with
  | PlaylistChangeSegmentDeleted => 0
  | PlaylistChangeSegmentCreated => 1
  | PlaylistChangeSegmentChanged => 2
  | PlaylistChangeSegmentMoved => 3
  | PlaylistChangeRundownDeleted => 4
  | PlaylistChangeRundownCreated => 5
  end.

#[global] Instance eq_dec : EqDecision t.
Proof. solve_decision. Defined.

#[global] Instance value_inj : Inj (=) (=) value.
Proof. by intros [] [] [=]. Qed.

Lemma value_bound ty : value ty < 6.
Proof. destruct ty; simpl; lia. Qed.

End PlaylistChangeType.

(** The union [PlaylistChange]: one constructor per interface, the [type]
    field being the constructor. *)
Inductive PlaylistChange : Type :=
  | PlaylistChangeSegmentDeleted (rundownExternalId segmentExternalId : string)
  | PlaylistChangeSegmentCreated (rundownExternalId segmentExternalId : string)
  | PlaylistChangeSegmentChanged (rundownExternalId segmentExternalId : string)
  | PlaylistChangeSegmentMoved (rundownExternalId segmentExternalId : string)
  | PlaylistChangeRundownDeleted (rundownExternalId : string)
  | PlaylistChangeRundownCreated (rundownExternalId : string).

#[export] Instance PlaylistChange_eq_dec : EqDecision PlaylistChange.
Proof. solve_decision. Defined.

(** The field [type] of [PlaylistChangeBase]. *)
Definition type (c : PlaylistChange) : PlaylistChangeType.t :=
  match c with
  | PlaylistChangeSegmentDeleted _ _ =>
      PlaylistChangeType.PlaylistChangeSegmentDeleted
  | PlaylistChangeSegmentCreated _ _ =>
      PlaylistChangeType.PlaylistChangeSegmentCreated
  | PlaylistChangeSegmentChanged _ _ =>
      PlaylistChangeType.PlaylistChangeSegmentChanged
  | PlaylistChangeSegmentMoved _ _ =>
      PlaylistChangeType.PlaylistChangeSegmentMoved
  | PlaylistChangeRundownDeleted _ =>
      PlaylistChangeType.PlaylistChangeRundownDeleted
  | PlaylistChangeRundownCreated _ =>
      PlaylistChangeType.PlaylistChangeRundownCreated
  end.

(** The field [rundownExternalId], which every shape has. *)
Definition rundownExternalId (c : PlaylistChange) : string :=
  match c with
  | PlaylistChangeSegmentDeleted r _ | PlaylistChangeSegmentCreated r _
  | PlaylistChangeSegmentChanged r _ | PlaylistChangeSegmentMoved r _
  | PlaylistChangeRundownDeleted r | PlaylistChangeRundownCreated r => r
  end.

(** The field [segmentExternalId], which the segment shapes have. *)
Definition segmentExternalId (c : PlaylistChange) : option string :=
  match c with
  | PlaylistChangeSegmentDeleted _ s | PlaylistChangeSegmentCreated _ s
  | PlaylistChangeSegmentChanged _ s | PlaylistChangeSegmentMoved _ s => Some s
  | PlaylistChangeRundownDeleted _ | PlaylistChangeRundownCreated _ => None
  end.

(** A record is segment-level when it carries a segment id. *)
Definition segmentLevel (c : PlaylistChange) : bool :=
  bool_decide (is_Some (segmentExternalId c)).

(** The constructors are injective in the ids they carry. *)
#[export] Instance PlaylistChangeRundownDeleted_inj :
  Inj (=) (=) PlaylistChangeRundownDeleted.
Proof. by intros ?? [=]. Qed.

#[export] Instance PlaylistChangeRundownCreated_inj :
  Inj (=) (=) PlaylistChangeRundownCreated.
Proof. by intros ?? [=]. Qed.

#[export] Instance PlaylistChangeSegmentMoved_inj r :
  Inj (=) (=) (PlaylistChangeSegmentMoved r).
Proof. by intros ?? [=]. Qed.

#[export] Instance PlaylistChangeSegmentCreated_inj r :
  Inj (=) (=) (PlaylistChangeSegmentCreated r).
Proof. by intros ?? [=]. Qed.

#[export] Instance PlaylistChangeSegmentDeleted_inj r :
  Inj (=) (=) (PlaylistChangeSegmentDeleted r).
Proof. by intros ?? [=]. Qed.

Lemma segmentLevel_type c :
  segmentLevel c = bool_decide (PlaylistChangeType.value (type c) < 4).
Proof. destruct c; by vm_compute. Qed.
