(* ===== verification/Lcs.v ===== *)
(** * Longest common subsequences

    The resolver of the specification keeps in place a longest subsequence
    that the previous and the new order share (section 4.1), computed with a
    dynamic-programming table and a walk over it (section 9).  This file has
    the reference function [lcs], its length [lcs_len], the proof that [lcs]
    is a common subsequence and that no common subsequence is longer, and the
    table [lcs_table] with the walk [lcs_backtrack], proved equal to [lcs].

    A subsequence is stdpp's [sublist].  On a tie [lcs] drops the head of its
    second argument, which keeps the earliest elements of the first. *)

From S2P Require Import Prelude.

Section lcs.
Context {A : Type} `{!EqDecision A}.
Implicit Types (x y : A) (xs ys s : list A).

(** The length of a longest common subsequence. *)
Fixpoint lcs_len xs ys : nat :=
  match xs with
  | [] => 0
  | x :: xs' =>
      (fix inner ys : nat :=
         match ys with
         | [] => 0
         | y :: ys' =>
             if decide (x = y) then S (lcs_len xs' ys')
             else lcs_len xs' ys `max` inner ys'
         end) ys
  end.

(** A longest common subsequence.  When dropping either head gives the same
    length, the head of [ys] is dropped. *)
Fixpoint lcs xs ys : list A :=
  match xs with
  | [] => []
  | x :: xs' =>
      (fix inner ys : list A :=
         match ys with
         | [] => []
         | y :: ys' =>
             if decide (x = y) then x :: lcs xs' ys'
             else
               let a := lcs xs' ys in
               let b := inner ys' in
               if decide (length b < length a) then a else b
         end) ys
  end.

(** *** The table of section 9

    Row [i] of the table holds, for every [j], the length of a longest
    common subsequence of the suffixes [drop i xs] and [drop j ys].  The rows
    are computed from the last one (all zeros) upwards, each from the row
    below it, and each row from its last cell leftwards. *)

(** The suffixes of a list, the list itself first and [[]] last. *)
Fixpoint suffixes {B} (l : list B) : list (list B) :=
  l :: match l with [] => [] | _ :: l' => suffixes l' end.

(** The row of [x :: xs] from the row [below] of [xs]. *)
Fixpoint lcs_row x ys (below : list nat) : list nat :=
  match ys with
  | [] => [0]
  | y :: ys' =>
      let rest := lcs_row x ys' (tail below) in
      (if decide (x = y) then S (hd 0 (tail below))
       else hd 0 below `max` hd 0 rest) :: rest
  end.

Fixpoint lcs_table xs ys : list (list nat) :=
  match xs with
  | [] => [replicate (S (length ys)) 0]
  | x :: xs' =>
      let t := lcs_table xs' ys in
      lcs_row x ys (hd [] t) :: t
  end.

(** The cell in row [i] and column [j], [0] outside the table. *)
Definition lcs_cell (t : list (list nat)) (i j : nat) : nat :=
  default 0 (t !! i ≫= (.!! j)).

(** The walk from the cell of [xs] and [ys] (column [j] of the first row of
    [t]): a common head is kept; otherwise the walk goes down when the cell
    below is larger than the cell to the right, and right if not. *)
Fixpoint lcs_backtrack xs (t : list (list nat)) ys (j : nat) : list A :=
  match xs with
  | [] => []
  | x :: xs' =>
      (fix walk ys j : list A :=
         match ys with
         | [] => []
         | y :: ys' =>
             if decide (x = y) then x :: lcs_backtrack xs' (tail t) ys' (S j)
             else if decide (lcs_cell t 0 (S j) < lcs_cell t 1 j)
                  then lcs_backtrack xs' (tail t) ys j
                  else walk ys' (S j)
         end) ys j
  end.

(** The longest common subsequence by table and walk. *)
Definition lcs_dp xs ys : list A :=
  lcs_backtrack xs (lcs_table xs ys) ys 0.

(** [s] is a subsequence of both lists and no common subsequence is
    longer. *)
Record is_lcs (s xs ys : list A) : Prop := {
  is_lcs_l : s `sublist_of` xs;
  is_lcs_r : s `sublist_of` ys;
  is_lcs_max s' :
    s' `sublist_of` xs → s' `sublist_of` ys → length s' ≤ length s;
}.

(** *** Unfolding *)

Lemma lcs_len_nil_r xs : lcs_len xs [] = 0.
Proof. by destruct xs. Qed.

Lemma lcs_len_cons x xs y ys :
  lcs_len (x :: xs) (y :: ys) =
  if decide (x = y) then S (lcs_len xs ys)
  else lcs_len xs (y :: ys) `max` lcs_len (x :: xs) ys.
Proof. done. Qed.

Lemma lcs_nil_r xs : lcs xs [] = [].
Proof. by destruct xs. Qed.

Lemma lcs_cons x xs y ys :
  lcs (x :: xs) (y :: ys) =
  if decide (x = y) then x :: lcs xs ys
  else if decide (length (lcs (x :: xs) ys) < length (lcs xs (y :: ys)))
       then lcs xs (y :: ys) else lcs (x :: xs) ys.
Proof. done. Qed.

(** Induction on two lists the way [lcs] recurses. *)
Lemma lcs_ind (P : list A → list A → Prop) :
  (∀ ys, P [] ys) → (∀ xs, P xs []) →
  (∀ x xs y ys,
     P xs ys → P xs (y :: ys) → P (x :: xs) ys → P (x :: xs) (y :: ys)) →
  ∀ xs ys, P xs ys.
Proof.
  intros Hl Hr Hstep xs. induction xs as [|x xs IHx]; [done|].
  intros ys. induction ys as [|y ys IHy]; [done|]. by apply Hstep.
Qed.

(** *** [lcs] is a common subsequence of length [lcs_len] *)

Lemma lcs_length xs ys : length (lcs xs ys) = lcs_len xs ys.
Proof.
  revert xs ys. apply lcs_ind.
  - done.
  - intros. by rewrite lcs_nil_r lcs_len_nil_r.
  - intros x xs y ys IH IHx IHy. rewrite lcs_cons lcs_len_cons.
    case_decide; [by rewrite length_cons IH|]. case_decide; lia.
Qed.

Lemma lcs_sublist_l xs ys : lcs xs ys `sublist_of` xs.
Proof.
  revert xs ys. apply lcs_ind; intros.
  - done.
  - rewrite lcs_nil_r. apply sublist_nil_l.
  - rewrite lcs_cons. repeat case_decide;
      eauto using sublist_skip, sublist_cons.
Qed.

Lemma lcs_sublist_r xs ys : lcs xs ys `sublist_of` ys.
Proof.
  revert xs ys. apply lcs_ind; intros.
  - apply sublist_nil_l.
  - by rewrite lcs_nil_r.
  - rewrite lcs_cons. repeat case_decide; simplify_eq;
      eauto using sublist_skip, sublist_cons.
Qed.

(** *** No common subsequence is longer *)

Lemma sublist_cons_tail x s ys : x :: s `sublist_of` ys → s `sublist_of` ys.
Proof. intros. etrans; [apply sublist_cons|]; done. Qed.

Lemma lcs_len_max xs ys s :
  s `sublist_of` xs → s `sublist_of` ys → length s ≤ lcs_len xs ys.
Proof.
  revert xs ys s. refine (lcs_ind _ _ _ _).
  - intros ys s ->%sublist_nil_r _. simpl. lia.
  - intros xs s _ ->%sublist_nil_r. simpl. lia.
  - intros x xs y ys IH IHx IHy s Hx Hy. rewrite lcs_len_cons.
    apply sublist_cons_r in Hx as [Hx|(s' & -> & Hx)];
    apply sublist_cons_r in Hy as [Hy|(s'' & ? & Hy)]; simplify_eq.
    + specialize (IHx s Hx (sublist_cons _ _ _ Hy)). case_decide; [|lia].
      subst. destruct s as [|z s]; [simpl; lia|].
      specialize (IH s (sublist_cons_tail _ _ _ Hx) (sublist_cons_tail _ _ _ Hy)).
      simpl. lia.
    + specialize (IHx _ Hx (sublist_skip _ _ _ Hy)). case_decide; [|lia].
      subst. specialize (IH s'' (sublist_cons_tail _ _ _ Hx) Hy). simpl. lia.
    + specialize (IHy _ (sublist_skip _ _ _ Hx) Hy). case_decide; [|lia].
      subst. specialize (IH s' Hx (sublist_cons_tail _ _ _ Hy)). simpl. lia.
    + rewrite decide_True //. specialize (IH _ Hx Hy). simpl. lia.
Qed.

Lemma lcs_is_lcs xs ys : is_lcs (lcs xs ys) xs ys.
Proof.
  split; [apply lcs_sublist_l|apply lcs_sublist_r|].
  intros. rewrite lcs_length. by apply lcs_len_max.
Qed.

(** *** Algebra of [lcs] *)

Lemma lcs_refl xs : lcs xs xs = xs.
Proof.
  induction xs as [|x xs IH]; [done|]. by rewrite lcs_cons decide_True // IH.
Qed.

Lemma lcs_len_comm xs ys : lcs_len xs ys = lcs_len ys xs.
Proof.
  apply (anti_symm (≤)); rewrite -lcs_length; apply lcs_len_max;
    auto using lcs_sublist_l, lcs_sublist_r.
Qed.

Lemma lcs_len_le_l xs ys : lcs_len xs ys ≤ length xs.
Proof. rewrite -lcs_length. apply sublist_length, lcs_sublist_l. Qed.

Lemma lcs_len_le_r xs ys : lcs_len xs ys ≤ length ys.
Proof. rewrite -lcs_length. apply sublist_length, lcs_sublist_r. Qed.

Lemma lcs_NoDup xs ys : NoDup xs → NoDup (lcs xs ys).
Proof. intros. eapply sublist_NoDup, lcs_sublist_l. done. Qed.

Lemma lcs_elem_of xs ys x : x ∈ lcs xs ys → x ∈ xs ∧ x ∈ ys.
Proof.
  split; eapply elem_of_sublist; eauto using lcs_sublist_l, lcs_sublist_r.
Qed.

Lemma is_lcs_sym s xs ys : is_lcs s xs ys → is_lcs s ys xs.
Proof. intros [? ? Hmax]. split; [done..|]. intros. by apply Hmax. Qed.

(** Two longest common subsequences have the same length. *)
Lemma is_lcs_length s xs ys : is_lcs s xs ys → length s = lcs_len xs ys.
Proof.
  intros [Hl Hr Hmax]. apply (anti_symm (≤)); [by apply lcs_len_max|].
  rewrite -lcs_length. apply Hmax; [apply lcs_sublist_l|apply lcs_sublist_r].
Qed.

(** *** The table holds the lengths and the walk returns [lcs] *)

Lemma suffixes_lookup {B} (l : list B) j :
  j ≤ length l → suffixes l !! j = Some (drop j l).
Proof.
  revert j. induction l as [|x l IH]; intros [|j] ?; simpl in *; try done;
    [lia|]. apply IH. lia.
Qed.

Lemma suffixes_hd {B} (l : list B) (f : list B → nat) :
  hd 0 (f <$> suffixes l) = f l.
Proof. by destruct l. Qed.

Lemma suffixes_tail {B} (x : B) l (f : list B → nat) :
  tail (f <$> suffixes (x :: l)) = f <$> suffixes l.
Proof. done. Qed.

Lemma lcs_len_nil_suffixes ys :
  lcs_len [] <$> suffixes ys = replicate (S (length ys)) 0.
Proof.
  induction ys as [|y ys IH]; [done|].
  by rewrite /suffixes -/suffixes fmap_cons IH.
Qed.

Lemma lcs_row_spec x xs ys :
  lcs_row x ys (lcs_len xs <$> suffixes ys) = lcs_len (x :: xs) <$> suffixes ys.
Proof.
  induction ys as [|y ys IH]; [done|].
  rewrite /lcs_row -/lcs_row suffixes_tail IH !suffixes_hd.
  by rewrite -lcs_len_cons.
Qed.

Lemma lcs_table_spec xs ys :
  lcs_table xs ys = (λ xs', lcs_len xs' <$> suffixes ys) <$> suffixes xs.
Proof.
  induction xs as [|x xs IH]; [by rewrite /= lcs_len_nil_suffixes|].
  rewrite /lcs_table -/lcs_table IH.
  replace (hd [] _) with (lcs_len xs <$> suffixes ys) by (by destruct xs).
  by rewrite lcs_row_spec.
Qed.

Lemma lcs_cell_spec xs ys i j :
  i ≤ length xs → j ≤ length ys →
  lcs_cell (lcs_table xs ys) i j = lcs_len (drop i xs) (drop j ys).
Proof.
  intros. rewrite /lcs_cell lcs_table_spec list_lookup_fmap.
  rewrite suffixes_lookup //= list_lookup_fmap suffixes_lookup //.
Qed.

Lemma lcs_backtrack_cons x xs t y ys j :
  lcs_backtrack (x :: xs) t (y :: ys) j =
  if decide (x = y) then x :: lcs_backtrack xs (tail t) ys (S j)
  else if decide (lcs_cell t 0 (S j) < lcs_cell t 1 j)
       then lcs_backtrack xs (tail t) (y :: ys) j
       else lcs_backtrack (x :: xs) t ys (S j).
Proof. done. Qed.

Lemma lcs_backtrack_nil_r xs t j : lcs_backtrack xs t [] j = [].
Proof. by destruct xs. Qed.

Lemma lcs_backtrack_spec xs ys ys0 j :
  j ≤ length ys0 → ys = drop j ys0 →
  lcs_backtrack xs (lcs_table xs ys0) ys j = lcs xs ys.
Proof.
  revert xs ys j. refine (lcs_ind _ _ _ _).
  - done.
  - intros. by rewrite lcs_backtrack_nil_r lcs_nil_r.
  - intros x xs y ys IH IHx IHy j Hj Hdrop.
    assert (j < length ys0) as Hlt.
    { apply (f_equal length) in Hdrop. rewrite length_drop /= in Hdrop. lia. }
    assert (ys = drop (S j) ys0) as Hys.
    { apply (f_equal (drop 1)) in Hdrop. rewrite drop_drop in Hdrop.
      by rewrite Nat.add_1_r in Hdrop. }
    rewrite lcs_backtrack_cons lcs_cons.
    rewrite !(lcs_cell_spec (x :: xs)); [|simpl; lia..].
    change (drop 1 (x :: xs)) with xs. change (tail (lcs_table (x :: xs) ys0))
      with (lcs_table xs ys0).
    rewrite drop_0 -Hdrop -Hys -!lcs_length.
    rewrite IH; [|lia|done]. rewrite IHx // IHy //.
Qed.

Lemma lcs_dp_lcs xs ys : lcs_dp xs ys = lcs xs ys.
Proof. apply lcs_backtrack_spec; [lia|done]. Qed.

Lemma lcs_dp_is_lcs xs ys : is_lcs (lcs_dp xs ys) xs ys.
Proof. rewrite lcs_dp_lcs. apply lcs_is_lcs. Qed.

Lemma lcs_table_length xs ys : length (lcs_table xs ys) = S (length xs).
Proof.
  rewrite lcs_table_spec length_fmap. induction xs; simpl; [done|lia].
Qed.

End lcs.

#[export] Hint Resolve lcs_sublist_l lcs_sublist_r lcs_is_lcs lcs_dp_is_lcs : gateway.
#[export] Hint Rewrite @lcs_refl @lcs_nil_r @lcs_dp_lcs : gateway_rw.
