(* ===== verification/Resolver.v ===== *)
(** * The interface between the differ and the move-set resolver

    [DiffPlaylist] imports [GetMovedSegments] and relies on its contract
    only.  [MoveSetResolver] is the operation and [ResolverLaws] the contract
    (section 4.1 of the specification): what each of the four lists holds,
    that [moved] and [notMoved] do not meet, and that [notMoved] is a longest
    common subsequence of the two orders.  Everything the differ needs of a
    resolver is derived here from the laws, so that the theorems on
    [DiffPlaylist] hold for any implementation that satisfies them. *)

From S2P Require Import Prelude Types Lcs.

(** [GetMovedSegments(previousOrder, newOrder)] *)
Class MoveSetResolver : Type := {
  resolve : list SegmentId → list SegmentId → SegmentChanges;
}.

Class ResolverLaws (R : MoveSetResolver) : Prop := {
  resolve_inserted prev cur x :
    x ∈ insertedSegments (resolve prev cur) ↔ x ∈ cur ∧ x ∉ prev;
  resolve_deleted prev cur x :
    x ∈ deletedSegments (resolve prev cur) ↔ x ∈ prev ∧ x ∉ cur;
  resolve_common prev cur x :
    x ∈ movedSegments (resolve prev cur) ∨
    x ∈ notMovedSegments (resolve prev cur) ↔ x ∈ prev ∧ x ∈ cur;
  resolve_moved_notMoved prev cur x :
    x ∈ movedSegments (resolve prev cur) →
    x ∉ notMovedSegments (resolve prev cur);
  resolve_notMoved_lcs prev cur :
    is_lcs (notMovedSegments (resolve prev cur)) prev cur;
  resolve_NoDup prev cur :
    NoDup prev → NoDup cur →
    NoDup (movedSegments (resolve prev cur)) ∧
    NoDup (insertedSegments (resolve prev cur)) ∧
    NoDup (deletedSegments (resolve prev cur));
}.

(** The summary of a rundown that did not change. *)
Definition unchangedSegments (l : list SegmentId) : SegmentChanges :=
  {| movedSegments := []; notMovedSegments := l;
     insertedSegments := []; deletedSegments := [] |}.

(** Four lists are a partition of the ids of two orders: they cover them and
    no id is in two of them. *)
Record partitions (sc : SegmentChanges) (prev cur : list SegmentId) : Prop := {
  partitions_cover x : x ∈ allSegments sc ↔ x ∈ prev ∨ x ∈ cur;
  partitions_moved_notMoved x :
    x ∈ movedSegments sc → x ∉ notMovedSegments sc;
  partitions_inserted_deleted x :
    x ∈ insertedSegments sc → x ∉ deletedSegments sc;
  partitions_common_inserted x :
    x ∈ movedSegments sc ++ notMovedSegments sc → x ∉ insertedSegments sc;
  partitions_common_deleted x :
    x ∈ movedSegments sc ++ notMovedSegments sc → x ∉ deletedSegments sc;
}.

Section laws.
Context `{!ResolverLaws R}.
Implicit Types (prev cur l s : list SegmentId) (x : SegmentId).

Lemma resolve_partitions prev cur : partitions (resolve prev cur) prev cur.
Proof.
  pose proof (resolve_inserted prev cur). pose proof (resolve_deleted prev cur).
  pose proof (resolve_common prev cur).
  pose proof (resolve_moved_notMoved prev cur).
  split; rewrite /allSegments; intros x; [|set_solver..].
  destruct (decide (x ∈ prev)), (decide (x ∈ cur)); set_solver.
Qed.

Lemma resolve_notMoved_prev prev cur :
  notMovedSegments (resolve prev cur) `sublist_of` prev.
Proof. apply is_lcs_l with cur, resolve_notMoved_lcs. Qed.

Lemma resolve_notMoved_cur prev cur :
  notMovedSegments (resolve prev cur) `sublist_of` cur.
Proof. apply is_lcs_r with prev, resolve_notMoved_lcs. Qed.

Lemma resolve_notMoved_longest prev cur s :
  s `sublist_of` prev → s `sublist_of` cur →
  length s ≤ length (notMovedSegments (resolve prev cur)).
Proof. apply is_lcs_max, resolve_notMoved_lcs. Qed.

Lemma resolve_notMoved_length prev cur :
  length (notMovedSegments (resolve prev cur)) = lcs_len prev cur.
Proof. apply is_lcs_length, resolve_notMoved_lcs. Qed.

Lemma resolve_NoDup_notMoved prev cur :
  NoDup cur → NoDup (notMovedSegments (resolve prev cur)).
Proof. intros. eapply sublist_NoDup, resolve_notMoved_cur. done. Qed.

(** Resolving an order against itself: nothing moved, inserted or deleted. *)
Lemma resolve_notMoved_self l : notMovedSegments (resolve l l) = l.
Proof.
  apply sublist_length_eq; [apply resolve_notMoved_prev|].
  by apply resolve_notMoved_longest.
Qed.

Lemma resolve_self l : resolve l l = unchangedSegments l.
Proof.
  pose proof (resolve_notMoved_self l) as Hn.
  pose proof (resolve_inserted l l). pose proof (resolve_deleted l l).
  pose proof (resolve_common l l). pose proof (resolve_moved_notMoved l l).
  destruct (resolve l l) as [mv nm ins del]; simpl in *. subst nm.
  rewrite /unchangedSegments. f_equal; apply nil_no_elem; set_solver.
Qed.

(** Conversely, with unique ids a resolver that reports nothing moved,
    inserted or deleted was given the same order twice. *)
Lemma resolve_silent prev cur :
  NoDup prev → NoDup cur →
  movedSegments (resolve prev cur) = [] →
  insertedSegments (resolve prev cur) = [] →
  deletedSegments (resolve prev cur) = [] →
  prev = cur.
Proof.
  intros Hp Hc.
  pose proof (resolve_notMoved_prev prev cur).
  pose proof (resolve_notMoved_cur prev cur).
  pose proof (resolve_inserted prev cur). pose proof (resolve_deleted prev cur).
  pose proof (resolve_common prev cur).
  destruct (resolve prev cur) as [mv nm ins del]; simpl in *. intros -> -> ->.
  trans nm; [symmetry|]; apply sublist_all_elem; try done; intros x Hx.
  - destruct (decide (x ∈ cur)); set_solver.
  - destruct (decide (x ∈ prev)); set_solver.
Qed.

(** With unique ids the lists are permutations of the orders they split. *)
Lemma resolve_perm_cur prev cur :
  NoDup prev → NoDup cur →
  movedSegments (resolve prev cur) ++ notMovedSegments (resolve prev cur) ++
    insertedSegments (resolve prev cur) ≡ₚ cur.
Proof.
  intros Hp Hc. destruct (resolve_NoDup prev cur) as (? & ? & ?); [done..|].
  pose proof (resolve_NoDup_notMoved prev cur Hc).
  pose proof (resolve_partitions prev cur) as [_ ? _ ? _].
  pose proof (resolve_inserted prev cur). pose proof (resolve_common prev cur).
  apply NoDup_Permutation; [|done|].
  - rewrite !NoDup_app. set_solver.
  - intros x. destruct (decide (x ∈ prev)); set_solver.
Qed.

Lemma resolve_perm_prev prev cur :
  NoDup prev → NoDup cur →
  movedSegments (resolve prev cur) ++ notMovedSegments (resolve prev cur) ++
    deletedSegments (resolve prev cur) ≡ₚ prev.
Proof.
  intros Hp Hc. destruct (resolve_NoDup prev cur) as (? & ? & ?); [done..|].
  pose proof (resolve_NoDup_notMoved prev cur Hc).
  pose proof (resolve_partitions prev cur) as [_ ? _ _ ?].
  pose proof (resolve_deleted prev cur). pose proof (resolve_common prev cur).
  apply NoDup_Permutation; [|done|].
  - rewrite !NoDup_app. set_solver.
  - intros x. destruct (decide (x ∈ cur)); set_solver.
Qed.

End laws.

(** The common ids, in the previous order: what [moved] and [notMoved]
    split. *)
Definition commonSegments (prev cur : list SegmentId) : list SegmentId :=
  filter (λ x, x ∈ cur) prev.

Lemma resolve_perm_common `{!ResolverLaws R} (prev cur : list SegmentId) :
  NoDup prev → NoDup cur →
  movedSegments (resolve prev cur) ++ notMovedSegments (resolve prev cur)
    ≡ₚ commonSegments prev cur.
Proof.
  intros Hp Hc. destruct (resolve_NoDup prev cur) as (? & _ & _); [done..|].
  pose proof (resolve_NoDup_notMoved prev cur Hc).
  pose proof (resolve_moved_notMoved prev cur).
  pose proof (resolve_common prev cur).
  apply NoDup_Permutation; [|by apply NoDup_filter|].
  - rewrite NoDup_app. set_solver.
  - rewrite /commonSegments. set_solver.
Qed.

(** The number of moves is the number of common ids less the length of a
    longest common subsequence: no lawful resolver reports fewer. *)
Lemma resolve_moved_length `{!ResolverLaws R} (prev cur : list SegmentId) :
  NoDup prev → NoDup cur →
  length (movedSegments (resolve prev cur)) + lcs_len prev cur =
  length (commonSegments prev cur).
Proof.
  intros Hp Hc. pose proof (resolve_perm_common prev cur Hp Hc) as Hperm.
  apply Permutation_length in Hperm.
  by rewrite length_app resolve_notMoved_length in Hperm.
Qed.

#[export] Hint Resolve resolve_partitions resolve_notMoved_lcs : gateway.
#[export] Hint Rewrite @resolve_self using (typeclasses eauto) : gateway_rw.
