(* ===== verification/GetMovedSegments.v ===== *)
(** * The move-set resolver

    [GetMovedSegments(previousOrder, newOrder)] as section 4.1 of the
    specification describes it: the ids only in the new order are inserted,
    the ids only in the previous order are deleted, and of the ids in both a
    longest common subsequence stays in place while the others moved.  The
    subsequence is computed with the table and the walk of [Lcs]
    ([lcs_dp]); [GetMovedSegments_lcs] replaces them by the reference
    function.  The function is proved to satisfy [ResolverLaws], which is
    all that [DiffPlaylist] assumes of it.

    The specification leaves the order of [movedSegments] open; the model
    lists them in the new order.  Its tie-break sentence and its example
    disagree (see [GetMovedSegments_spec_example] and
    [GetMovedSegmentsNewFirst_spec_example]); [GetMovedSegments] follows the
    example. *)

From S2P Require Import Prelude Types Resolver Lcs.

(** The ids of [l] that [other] holds too, in the order of [l]. *)
Definition reducedOrder (l other : list SegmentId) : list SegmentId :=
  filter (λ x, x ∈ other) l.

(** The ids of [l] that [other] does not hold, in the order of [l]. *)
Definition onlyIn (l other : list SegmentId) : list SegmentId :=
  filter (λ x, x ∉ other) l.

Definition GetMovedSegments (previousOrder newOrder : list SegmentId) :
    SegmentChanges :=
  let reducedPrevious := reducedOrder previousOrder newOrder in
  let reducedNew := reducedOrder newOrder previousOrder in
  let notMoved := lcs_dp reducedPrevious reducedNew in
  {| movedSegments := onlyIn reducedNew notMoved;
     notMovedSegments := notMoved;
     insertedSegments := onlyIn newOrder previousOrder;
     deletedSegments := onlyIn previousOrder newOrder |}.

(** The variant that implements the tie-break sentence of the specification
    as it is worded: on a tie the earliest ids of the new order stay. *)
Definition GetMovedSegmentsNewFirst (previousOrder newOrder : list SegmentId) :
    SegmentChanges :=
  let reducedPrevious := reducedOrder previousOrder newOrder in
  let reducedNew := reducedOrder newOrder previousOrder in
  let notMoved := lcs_dp reducedNew reducedPrevious in
  {| movedSegments := onlyIn reducedNew notMoved;
     notMovedSegments := notMoved;
     insertedSegments := onlyIn newOrder previousOrder;
     deletedSegments := onlyIn previousOrder newOrder |}.

#[export] Instance GetMovedSegments_resolver : MoveSetResolver :=
  {| resolve := GetMovedSegments |}.

Definition GetMovedSegmentsNewFirst_resolver : MoveSetResolver :=
  {| resolve := GetMovedSegmentsNewFirst |}.

(** ** The reduced orders *)

Section reduced.
Implicit Types (prev cur l other s : list SegmentId) (x : SegmentId).

Lemma elem_of_reducedOrder l other x :
  x ∈ reducedOrder l other ↔ x ∈ l ∧ x ∈ other.
Proof. rewrite /reducedOrder. set_solver. Qed.

Lemma elem_of_onlyIn l other x : x ∈ onlyIn l other ↔ x ∈ l ∧ x ∉ other.
Proof. rewrite /onlyIn. set_solver. Qed.

Lemma reducedOrder_sublist l other : reducedOrder l other `sublist_of` l.
Proof. apply sublist_filter. Qed.

Lemma reducedOrder_NoDup l other : NoDup l → NoDup (reducedOrder l other).
Proof. apply NoDup_filter. Qed.

Lemma onlyIn_NoDup l other : NoDup l → NoDup (onlyIn l other).
Proof. apply NoDup_filter. Qed.

Lemma reducedOrder_self l : reducedOrder l l = l.
Proof. by apply filter_all. Qed.

Lemma onlyIn_self l : onlyIn l l = [].
Proof. apply filter_none. set_solver. Qed.

(** A common subsequence of the orders is one of the reduced orders. *)
Lemma sublist_reducedOrder s l other :
  s `sublist_of` l → s `sublist_of` other → s `sublist_of` reducedOrder l other.
Proof.
  intros Hl Ho. apply sublist_filter_all; [done|].
  intros x Hx. by eapply elem_of_sublist.
Qed.

End reduced.

#[export] Instance set_unfold_reducedOrder l other x P Q :
  SetUnfoldElemOf x l P → SetUnfoldElemOf x other Q →
  SetUnfoldElemOf x (reducedOrder l other) (P ∧ Q).
Proof. intros [HP] [HQ]. constructor. by rewrite elem_of_reducedOrder HP HQ. Qed.

#[export] Instance set_unfold_onlyIn l other x P Q :
  SetUnfoldElemOf x l P → SetUnfoldElemOf x other Q →
  SetUnfoldElemOf x (onlyIn l other) (P ∧ ¬ Q).
Proof. intros [HP] [HQ]. constructor. by rewrite elem_of_onlyIn HP HQ. Qed.

(** ** The laws

    Both variants take [notMoved] to be a longest common subsequence of the
    reduced orders; the laws follow from that alone. *)

Section laws.
Implicit Types (prev cur s nm : list SegmentId) (x : SegmentId).

Lemma is_lcs_reduced prev cur nm :
  is_lcs nm (reducedOrder prev cur) (reducedOrder cur prev) →
  is_lcs nm prev cur.
Proof.
  intros [Hl Hr Hmax]. split.
  - etrans; [apply Hl|apply reducedOrder_sublist].
  - etrans; [apply Hr|apply reducedOrder_sublist].
  - intros s ??. apply Hmax; by apply sublist_reducedOrder.
Qed.

(** The laws of a resolver whose [notMoved] is such a subsequence and whose
    other lists are the filters above. *)
Lemma resolver_laws_of_lcs (R : MoveSetResolver) (pick : list SegmentId →
    list SegmentId → list SegmentId) :
  (∀ prev cur, is_lcs (pick prev cur)
     (reducedOrder prev cur) (reducedOrder cur prev)) →
  (∀ prev cur, resolve prev cur =
     {| movedSegments := onlyIn (reducedOrder cur prev) (pick prev cur);
        notMovedSegments := pick prev cur;
        insertedSegments := onlyIn cur prev;
        deletedSegments := onlyIn prev cur |}) →
  ResolverLaws R.
Proof.
  intros Hpick Hres.
  assert (∀ prev cur x, x ∈ pick prev cur → x ∈ prev ∧ x ∈ cur) as Hin.
  { intros prev cur x Hx. destruct (Hpick prev cur) as [Hl _ _].
    apply (elem_of_sublist _ _ _ Hx), elem_of_reducedOrder in Hl. done. }
  split; intros prev cur; rewrite Hres /=.
  - set_solver.
  - set_solver.
  - intros x. specialize (Hin prev cur x).
    destruct (decide (x ∈ pick prev cur)); set_solver.
  - set_solver.
  - apply is_lcs_reduced, Hpick.
  - intros. auto using onlyIn_NoDup, reducedOrder_NoDup.
Qed.

End laws.

#[export] Instance GetMovedSegments_laws : ResolverLaws GetMovedSegments_resolver.
Proof.
  apply (resolver_laws_of_lcs _
    (λ prev cur, lcs_dp (reducedOrder prev cur) (reducedOrder cur prev)));
    [intros; apply lcs_dp_is_lcs|done].
Qed.

Lemma GetMovedSegmentsNewFirst_laws :
  ResolverLaws GetMovedSegmentsNewFirst_resolver.
Proof.
  apply (resolver_laws_of_lcs _
    (λ prev cur, lcs_dp (reducedOrder cur prev) (reducedOrder prev cur)));
    [intros; apply is_lcs_sym, lcs_dp_is_lcs|done].
Qed.

(** The table and the walk may be replaced by the reference function. *)
Lemma GetMovedSegments_lcs (previousOrder newOrder : list SegmentId) :
  GetMovedSegments previousOrder newOrder =
  let reducedPrevious := reducedOrder previousOrder newOrder in
  let reducedNew := reducedOrder newOrder previousOrder in
  let notMoved := lcs reducedPrevious reducedNew in
  {| movedSegments := onlyIn reducedNew notMoved;
     notMovedSegments := notMoved;
     insertedSegments := onlyIn newOrder previousOrder;
     deletedSegments := onlyIn previousOrder newOrder |}.
Proof. by rewrite /GetMovedSegments lcs_dp_lcs. Qed.

(** ** The example of the specification (section 8)

    Previous order [A; B; C; D], new order [A; C; B; D; E]. *)

Lemma GetMovedSegments_spec_example :
  GetMovedSegments ["A"; "B"; "C"; "D"] ["A"; "C"; "B"; "D"; "E"] =
  {| movedSegments := ["C"]; notMovedSegments := ["A"; "B"; "D"];
     insertedSegments := ["E"]; deletedSegments := [] |}.
Proof. by vm_compute. Qed.

(** Keeping the earliest ids of the new order, as the tie-break sentence
    asks, moves [B] instead. *)
Lemma GetMovedSegmentsNewFirst_spec_example :
  GetMovedSegmentsNewFirst ["A"; "B"; "C"; "D"] ["A"; "C"; "B"; "D"; "E"] =
  {| movedSegments := ["B"]; notMovedSegments := ["A"; "C"; "D"];
     insertedSegments := ["E"]; deletedSegments := [] |}.
Proof. by vm_compute. Qed.

(** Duplicate ids in one order do not stop the resolver: every occurrence
    is classified with its id. *)
Lemma GetMovedSegments_duplicate_example :
  GetMovedSegments ["A"; "B"; "A"] ["B"; "A"; "C"; "C"] =
  {| movedSegments := []; notMovedSegments := ["B"; "A"];
     insertedSegments := ["C"; "C"]; deletedSegments := [] |}.
Proof. by vm_compute. Qed.
