(* ===== verification/DiffPlaylist.v ===== *)
(** * [DiffPlaylist]

    The function of [src/src/helpers/DiffPlaylist.ts].  Its state is the pair
    of the array [changes] and the map [segmentChanges] ([DiffResult]); the
    bodies of its two loops are [deletedRundownStep] and
    [currentRundownStep]; the resolver it calls is a parameter
    ([MoveSetResolver]).  The closed forms of the loops come first, then the
    properties of the result, those that need the contract of the resolver
    in a section that assumes [ResolverLaws]. *)

From S2P Require Import Prelude JsMap Types Lcs Resolver GetMovedSegments.

(** The value returned: [{ changes, segmentChanges }]. *)
Record DiffResult : Type := mkDiffResult {
  changes : list PlaylistChange;
  segmentChanges : JsMap.t RundownId SegmentChanges;
}.

(** The summary stored for a rundown that was deleted or created. *)
Definition emptySegmentChanges : SegmentChanges :=
  {| movedSegments := []; notMovedSegments := [];
     insertedSegments := []; deletedSegments := [] |}.

(** [playlist.find((p) => p.rundownId === rundown.rundownId)] *)
Definition findRundown (playlist : ResolvedPlaylist) (id : RundownId) :
    option ResolvedPlaylistRundown :=
  js_find (λ p, rundownId p = id) playlist.

(** [segs.forEach((s) => changes.push(literal({ type, rundownExternalId,
    segmentExternalId: s })))] *)
Definition pushSegmentChanges (mk : string → string → PlaylistChange)
    (rundownExternalId : RundownId) (segs : list SegmentId)
    (changes : list PlaylistChange) : list PlaylistChange :=
  js_forEach (λ changes s, js_push changes (mk rundownExternalId s))
    segs changes.

Section differ.
Context {R : MoveSetResolver}.
Implicit Types (playlist previous : ResolvedPlaylist).
Implicit Types (rundown : ResolvedPlaylistRundown) (st : DiffResult).

(** The body of [for (let rundown of previous)]. *)
Definition deletedRundownStep playlist st rundown : DiffResult :=
  let newRundown := findRundown playlist (rundownId rundown) in
  match newRundown with
  | None =>
      {| changes :=
           js_push (changes st)
             (PlaylistChangeRundownDeleted (rundownId rundown));
         segmentChanges :=
           JsMap.set (rundownId rundown) emptySegmentChanges
             (segmentChanges st) |}
  | Some _ => st
  end.

(** The body of [for (let rundown of playlist)]. *)
Definition currentRundownStep previous st rundown : DiffResult :=
  let prevRundown := findRundown previous (rundownId rundown) in
  match prevRundown with
  | None =>
      {| changes :=
           js_push (changes st)
             (PlaylistChangeRundownCreated (rundownId rundown));
         segmentChanges :=
           JsMap.set (rundownId rundown) emptySegmentChanges
             (segmentChanges st) |}
  | Some prevRundown =>
      let r := resolve (segments prevRundown) (segments rundown) in
      let changes1 :=
        pushSegmentChanges PlaylistChangeSegmentMoved (rundownId rundown)
          (movedSegments r) (changes st) in
      let changes2 :=
        pushSegmentChanges PlaylistChangeSegmentCreated (rundownId rundown)
          (insertedSegments r) changes1 in
      let changes3 :=
        pushSegmentChanges PlaylistChangeSegmentDeleted (rundownId rundown)
          (deletedSegments r) changes2 in
      {| changes := changes3;
         segmentChanges :=
           JsMap.set (rundownId rundown)
             {| movedSegments := movedSegments r;
                notMovedSegments := notMovedSegments r;
                insertedSegments := insertedSegments r;
                deletedSegments := deletedSegments r |}
             (segmentChanges st) |}
  end.

Definition DiffPlaylist playlist previous : DiffResult :=
  let st0 := {| changes := []; segmentChanges := JsMap.empty |} in
  let st1 := js_forEach (deletedRundownStep playlist) previous st0 in
  js_forEach (currentRundownStep previous) playlist st1.

(** ** What the loops compute, rundown by rundown *)

(** The rundowns of [previous] that [playlist] no longer holds. *)
Definition deletedRundowns playlist previous : ResolvedPlaylist :=
  filter (λ r, rundownId r ∉ rundownIds playlist) previous.

(** The summary the second loop stores for a rundown of [playlist]. *)
Definition rundownSummary previous rundown : SegmentChanges :=
  match findRundown previous (rundownId rundown) with
  | None => emptySegmentChanges
  | Some prevRundown => resolve (segments prevRundown) (segments rundown)
  end.

(** The records the second loop pushes for a rundown of [playlist]. *)
Definition rundownChanges previous rundown : list PlaylistChange :=
  match findRundown previous (rundownId rundown) with
  | None => [PlaylistChangeRundownCreated (rundownId rundown)]
  | Some prevRundown =>
      let r := resolve (segments prevRundown) (segments rundown) in
      (PlaylistChangeSegmentMoved (rundownId rundown) <$> movedSegments r) ++
      (PlaylistChangeSegmentCreated (rundownId rundown) <$> insertedSegments r) ++
      (PlaylistChangeSegmentDeleted (rundownId rundown) <$> deletedSegments r)
  end.

(** The entries of the map, in the order they are set. *)
Definition deletedEntries playlist previous :
    list (RundownId * SegmentChanges) :=
  (λ r, (rundownId r, emptySegmentChanges)) <$> deletedRundowns playlist previous.

Definition currentEntries previous playlist :
    list (RundownId * SegmentChanges) :=
  (λ r, (rundownId r, rundownSummary previous r)) <$> playlist.

(** The records of [cs] that concern the rundown [id], in order. *)
Definition changesOf (id : RundownId) (cs : list PlaylistChange) :
    list PlaylistChange :=
  filter (λ c, rundownExternalId c = id) cs.

(** The summary owed to a rundown id, stated on the two snapshots alone:
    the specification of [segmentChanges]. *)
Definition summarySpec playlist previous (id : RundownId) :
    option SegmentChanges :=
  match findRundown playlist id, findRundown previous id with
  | Some cur, Some prev => Some (resolve (segments prev) (segments cur))
  | Some _, None | None, Some _ => Some emptySegmentChanges
  | None, None => None
  end.

(** ** Closed forms *)

Lemma SegmentChanges_eta (r : SegmentChanges) :
  {| movedSegments := movedSegments r; notMovedSegments := notMovedSegments r;
     insertedSegments := insertedSegments r;
     deletedSegments := deletedSegments r |} = r.
Proof. by destruct r. Qed.

Lemma SegmentChanges_eta_result (st : DiffResult) :
  {| changes := changes st; segmentChanges := segmentChanges st |} = st.
Proof. by destruct st. Qed.

Lemma pushSegmentChanges_app mk id segs cs :
  pushSegmentChanges mk id segs cs = cs ++ (mk id <$> segs).
Proof. apply js_forEach_push. Qed.

Lemma findRundown_None playlist id :
  findRundown playlist id = None ↔ id ∉ rundownIds playlist.
Proof. apply js_find_key_None. Qed.

Lemma findRundown_is_Some playlist id :
  is_Some (findRundown playlist id) ↔ id ∈ rundownIds playlist.
Proof. apply js_find_key_is_Some. Qed.

Lemma findRundown_Some playlist id r :
  findRundown playlist id = Some r → r ∈ playlist ∧ rundownId r = id.
Proof. apply js_find_key_Some. Qed.

Lemma findRundown_unique playlist r :
  NoDup (rundownIds playlist) → r ∈ playlist →
  findRundown playlist (rundownId r) = Some r.
Proof. apply js_find_key_unique. Qed.

Lemma deletedRundownStep_eq playlist st rundown :
  deletedRundownStep playlist st rundown =
  if decide (rundownId rundown ∈ rundownIds playlist) then st
  else {| changes :=
            changes st ++ [PlaylistChangeRundownDeleted (rundownId rundown)];
          segmentChanges :=
            JsMap.set (rundownId rundown) emptySegmentChanges
              (segmentChanges st) |}.
Proof.
  rewrite /deletedRundownStep.
  destruct (findRundown _ _) eqn:E; case_decide as Hin; try done.
  - apply findRundown_None in Hin. congruence.
  - apply findRundown_is_Some in Hin as [? ?]. congruence.
Qed.

Lemma currentRundownStep_eq previous st rundown :
  currentRundownStep previous st rundown =
  {| changes := changes st ++ rundownChanges previous rundown;
     segmentChanges :=
       JsMap.set (rundownId rundown) (rundownSummary previous rundown)
         (segmentChanges st) |}.
Proof.
  rewrite /currentRundownStep /rundownChanges /rundownSummary.
  destruct (findRundown _ _); [|done].
  by rewrite !pushSegmentChanges_app SegmentChanges_eta -!assoc.
Qed.

(** The first loop: one record and one entry per deleted rundown. *)
Lemma deletedLoop_eq playlist previous st :
  js_forEach (deletedRundownStep playlist) previous st =
  {| changes :=
       changes st ++
       (PlaylistChangeRundownDeleted ∘ rundownId <$>
          deletedRundowns playlist previous);
     segmentChanges :=
       JsMap.set_list (deletedEntries playlist previous) (segmentChanges st) |}.
Proof.
  rewrite /deletedEntries /deletedRundowns.
  revert st. induction previous as [|r previous IH]; intros st.
  - destruct st. by rewrite /= app_nil_r.
  - rewrite js_forEach_cons IH deletedRundownStep_eq filter_cons.
    case_decide; [by rewrite decide_False; [|tauto]|].
    rewrite decide_True //= -assoc //.
Qed.

(** The second loop: the records and the entry of every rundown of
    [playlist], in order. *)
Lemma currentLoop_eq previous playlist st :
  js_forEach (currentRundownStep previous) playlist st =
  {| changes := changes st ++ (playlist ≫= rundownChanges previous);
     segmentChanges :=
       JsMap.set_list (currentEntries previous playlist) (segmentChanges st) |}.
Proof.
  rewrite /currentEntries.
  revert st. induction playlist as [|r playlist IH]; intros st.
  - destruct st. by rewrite /= app_nil_r.
  - by rewrite js_forEach_cons IH currentRundownStep_eq /= -assoc.
Qed.

(** ** The result, in closed form *)

Lemma DiffPlaylist_eq playlist previous :
  DiffPlaylist playlist previous =
  {| changes :=
       (PlaylistChangeRundownDeleted ∘ rundownId <$>
          deletedRundowns playlist previous) ++
       (playlist ≫= rundownChanges previous);
     segmentChanges :=
       JsMap.set_list (currentEntries previous playlist)
         (JsMap.set_list (deletedEntries playlist previous) JsMap.empty) |}.
Proof. by rewrite /DiffPlaylist currentLoop_eq deletedLoop_eq. Qed.

(** C1. The array [changes] holds one [RundownDeleted] record for every
    rundown of [previous] that [playlist] lacks, in the order of [previous],
    and then the records of every rundown of [playlist], in the order of
    [playlist]: [RundownCreated] for a new rundown, and for a rundown held by
    both the moved, then the inserted, then the deleted segments. *)
Theorem DiffPlaylist_changes playlist previous :
  changes (DiffPlaylist playlist previous) =
  (PlaylistChangeRundownDeleted ∘ rundownId <$>
     deletedRundowns playlist previous) ++
  (playlist ≫= rundownChanges previous).
Proof. by rewrite /DiffPlaylist currentLoop_eq deletedLoop_eq. Qed.

Lemma DiffPlaylist_segmentChanges playlist previous :
  segmentChanges (DiffPlaylist playlist previous) =
  JsMap.set_list (currentEntries previous playlist)
    (JsMap.set_list (deletedEntries playlist previous) JsMap.empty).
Proof. by rewrite DiffPlaylist_eq. Qed.

Lemma rundownIds_deletedRundowns playlist previous id :
  id ∈ rundownIds (deletedRundowns playlist previous) ↔
  id ∈ rundownIds previous ∧ id ∉ rundownIds playlist.
Proof. rewrite /rundownIds /deletedRundowns. set_solver. Qed.

Lemma get_deletedEntries playlist previous id :
  JsMap.get id (reverse (deletedEntries playlist previous)) =
  if decide (id ∈ rundownIds previous ∧ id ∉ rundownIds playlist)
  then Some emptySegmentChanges else None.
Proof.
  rewrite /deletedEntries -fmap_reverse JsMap.get_fmap.
  case_decide as Hid; rewrite -rundownIds_deletedRundowns in Hid;
    rewrite /rundownIds -elem_of_reverse -fmap_reverse in Hid.
  - apply (js_find_key_is_Some rundownId) in Hid as [x Hx]. by rewrite Hx.
  - apply (js_find_key_None rundownId) in Hid. by rewrite Hid.
Qed.

Lemma get_currentEntries previous playlist id :
  JsMap.get id (reverse (currentEntries previous playlist)) =
  rundownSummary previous <$> findRundown (reverse playlist) id.
Proof. by rewrite /currentEntries -fmap_reverse JsMap.get_fmap. Qed.

Lemma findRundown_reverse_None playlist id :
  findRundown (reverse playlist) id = None ↔ id ∉ rundownIds playlist.
Proof. by rewrite findRundown_None /rundownIds fmap_reverse elem_of_reverse. Qed.

(** What [get] reads after the two loops: the entry the second loop set
    last, or else the entry the first loop set. *)
Lemma get_segmentChanges playlist previous id :
  JsMap.get id (segmentChanges (DiffPlaylist playlist previous)) =
  match rundownSummary previous <$> findRundown (reverse playlist) id with
  | Some sc => Some sc
  | None =>
      if decide (id ∈ rundownIds previous ∧ id ∉ rundownIds playlist)
      then Some emptySegmentChanges else None
  end.
Proof.
  rewrite DiffPlaylist_segmentChanges !JsMap.get_set_list.
  rewrite get_currentEntries get_deletedEntries JsMap.get_empty.
  by repeat case_match.
Qed.

(** C2. The entry of [segmentChanges] for an id: the summary of the last
    rundown of [playlist] with that id when there is one (the resolver's
    result against the first rundown of [previous] with that id, or the empty
    summary when [previous] has none); the empty summary when only
    [previous] has the id; no entry otherwise. *)
Theorem DiffPlaylist_segmentChanges_get playlist previous id :
  JsMap.get id (segmentChanges (DiffPlaylist playlist previous)) =
  match findRundown (reverse playlist) id with
  | Some rundown => Some (rundownSummary previous rundown)
  | None =>
      if decide (id ∈ rundownIds previous) then Some emptySegmentChanges
      else None
  end.
Proof.
  rewrite get_segmentChanges.
  destruct (findRundown (reverse playlist) id) eqn:E; [done|].
  apply findRundown_reverse_None in E. simpl.
  repeat case_decide; naive_solver.
Qed.

(** The entry of a rundown of [playlist], and of an id [playlist] lacks. *)
Lemma get_current playlist previous cur :
  NoDup (rundownIds playlist) → cur ∈ playlist →
  JsMap.get (rundownId cur) (segmentChanges (DiffPlaylist playlist previous)) =
  Some (rundownSummary previous cur).
Proof.
  intros Hnd Hcur. rewrite get_segmentChanges.
  rewrite /findRundown js_find_key_reverse // -/(findRundown _ _).
  by rewrite findRundown_unique.
Qed.

Lemma get_absent playlist previous id :
  id ∉ rundownIds playlist →
  JsMap.get id (segmentChanges (DiffPlaylist playlist previous)) =
  if decide (id ∈ rundownIds previous) then Some emptySegmentChanges else None.
Proof.
  intros Hid. rewrite get_segmentChanges.
  pose proof Hid as ->%findRundown_reverse_None. simpl.
  repeat case_decide; naive_solver.
Qed.

Lemma rundownSummary_both previous cur prev :
  findRundown previous (rundownId cur) = Some prev →
  rundownSummary previous cur = resolve (segments prev) (segments cur).
Proof. rewrite /rundownSummary. by intros ->. Qed.

Lemma rundownSummary_created previous cur :
  rundownId cur ∉ rundownIds previous →
  rundownSummary previous cur = emptySegmentChanges.
Proof. rewrite /rundownSummary. by intros ->%findRundown_None. Qed.

(** ** The map: invariant and keys *)

Lemma currentEntries_keys previous playlist :
  (currentEntries previous playlist).*1 = rundownIds playlist.
Proof. by rewrite /currentEntries -list_fmap_compose. Qed.

Lemma deletedEntries_keys playlist previous :
  (deletedEntries playlist previous).*1 =
  rundownIds (deletedRundowns playlist previous).
Proof. by rewrite /deletedEntries -list_fmap_compose. Qed.

Lemma deletedRundowns_NoDup playlist previous :
  NoDup (rundownIds previous) →
  NoDup (rundownIds (deletedRundowns playlist previous)).
Proof.
  intros Hnd. eapply sublist_NoDup; [apply Hnd|].
  rewrite /rundownIds /deletedRundowns. apply fmap_sublist, sublist_filter.
Qed.

(** Each loop body keeps the keys of [segmentChanges] unique, and so does
    [DiffPlaylist]. *)
Lemma deletedRundownStep_wf playlist st rundown :
  JsMap.wf (segmentChanges st) →
  JsMap.wf (segmentChanges (deletedRundownStep playlist st rundown)).
Proof. rewrite deletedRundownStep_eq. case_decide; simpl; auto with gateway. Qed.

Lemma currentRundownStep_wf previous st rundown :
  JsMap.wf (segmentChanges st) →
  JsMap.wf (segmentChanges (currentRundownStep previous st rundown)).
Proof. rewrite currentRundownStep_eq /=. auto with gateway. Qed.

Lemma DiffPlaylist_wf playlist previous :
  JsMap.wf (segmentChanges (DiffPlaylist playlist previous)).
Proof.
  rewrite /DiffPlaylist.
  apply (js_forEach_invariant (λ st, JsMap.wf (segmentChanges st)));
    [auto using currentRundownStep_wf|].
  apply (js_forEach_invariant (λ st, JsMap.wf (segmentChanges st)));
    [auto using deletedRundownStep_wf|apply JsMap.wf_empty].
Qed.

(** C7. Completeness: an id has an entry in [segmentChanges] exactly when a
    rundown of either snapshot has it. *)
Theorem DiffPlaylist_keys_elem playlist previous id :
  id ∈ JsMap.keys (segmentChanges (DiffPlaylist playlist previous)) ↔
  id ∈ rundownIds previous ∨ id ∈ rundownIds playlist.
Proof.
  rewrite DiffPlaylist_segmentChanges !JsMap.elem_of_keys_set_list.
  rewrite currentEntries_keys deletedEntries_keys rundownIds_deletedRundowns.
  destruct (decide (id ∈ rundownIds playlist)); set_solver.
Qed.

(** C8. One entry per rundown id, whatever the snapshots hold (duplicate
    ids included): the keys of [segmentChanges], in iteration order, are the
    ids of the rundowns of [previous] that [playlist] lacks followed by the
    ids of [playlist], each id standing once, where it first occurs. *)
Theorem DiffPlaylist_keys_first playlist previous :
  JsMap.keys (segmentChanges (DiffPlaylist playlist previous)) =
  first_occurrences
    (rundownIds (deletedRundowns playlist previous) ++ rundownIds playlist).
Proof.
  rewrite DiffPlaylist_segmentChanges -JsMap.set_list_app.
  rewrite JsMap.keys_set_list_first; [|apply JsMap.wf_empty].
  by rewrite fmap_app currentEntries_keys deletedEntries_keys.
Qed.

(** ** The records *)

Lemma elem_of_rundownChanges previous rundown c :
  c ∈ rundownChanges previous rundown ↔
  match findRundown previous (rundownId rundown) with
  | None => c = PlaylistChangeRundownCreated (rundownId rundown)
  | Some prevRundown =>
      let r := resolve (segments prevRundown) (segments rundown) in
      (∃ s, c = PlaylistChangeSegmentMoved (rundownId rundown) s ∧
            s ∈ movedSegments r) ∨
      (∃ s, c = PlaylistChangeSegmentCreated (rundownId rundown) s ∧
            s ∈ insertedSegments r) ∨
      (∃ s, c = PlaylistChangeSegmentDeleted (rundownId rundown) s ∧
            s ∈ deletedSegments r)
  end.
Proof. rewrite /rundownChanges. destruct (findRundown _ _); set_solver. Qed.

Lemma rundownChanges_rundownExternalId previous rundown :
  Forall (λ c, rundownExternalId c = rundownId rundown)
    (rundownChanges previous rundown).
Proof.
  apply Forall_forall. intros c. rewrite elem_of_rundownChanges.
  destruct (findRundown _ _); naive_solver.
Qed.

Lemma elem_of_changes playlist previous c :
  c ∈ changes (DiffPlaylist playlist previous) ↔
  (∃ r, r ∈ previous ∧ (rundownId r ∉ rundownIds playlist) ∧
        c = PlaylistChangeRundownDeleted (rundownId r)) ∨
  (∃ r, r ∈ playlist ∧ c ∈ rundownChanges previous r).
Proof.
  rewrite DiffPlaylist_eq /deletedRundowns. csimpl.
  rewrite elem_of_app list_elem_of_fmap list_elem_of_bind. set_solver.
Qed.

(** C9. [PlaylistChangeSegmentChanged] is declared by the vocabulary and
    never emitted: no record of [changes] has this type. *)
Theorem DiffPlaylist_never_SegmentChanged playlist previous :
  Forall (λ c, type c ≠ PlaylistChangeType.PlaylistChangeSegmentChanged)
    (changes (DiffPlaylist playlist previous)).
Proof.
  apply Forall_forall. intros c [(r & _ & _ & ->)|(r & _ & Hc)]%elem_of_changes;
    [done|].
  apply elem_of_rundownChanges in Hc. destruct (findRundown _ _); naive_solver.
Qed.

(** C20. Every record names a rundown of one of the snapshots: a deleted
    rundown is one of [previous], every other record concerns a rundown of
    [playlist]. *)
Theorem DiffPlaylist_changes_rundownExternalId playlist previous :
  Forall (λ c,
    if decide (type c = PlaylistChangeType.PlaylistChangeRundownDeleted)
    then rundownExternalId c ∈ rundownIds previous ∧
         rundownExternalId c ∉ rundownIds playlist
    else rundownExternalId c ∈ rundownIds playlist)
    (changes (DiffPlaylist playlist previous)).
Proof.
  apply Forall_forall.
  intros c [(r & ? & ? & ->)|(r & ? & Hc)]%elem_of_changes; simpl.
  - rewrite /rundownIds. set_solver.
  - apply elem_of_rundownChanges in Hc. rewrite /rundownIds.
    destruct (findRundown _ _); case_decide; set_solver.
Qed.

(** ** Rundown by rundown *)

Lemma changesOf_rundownChanges previous rundown :
  changesOf (rundownId rundown) (rundownChanges previous rundown) =
  rundownChanges previous rundown.
Proof.
  apply filter_all, Forall_forall, rundownChanges_rundownExternalId.
Qed.

(** The records of one rundown id: the [RundownDeleted] records of the
    rundowns of [previous] with this id that [playlist] lacks, then the
    records of the rundowns of [playlist] with this id. *)
Lemma changesOf_DiffPlaylist playlist previous id :
  changesOf id (changes (DiffPlaylist playlist previous)) =
  (PlaylistChangeRundownDeleted ∘ rundownId <$>
     filter (λ r, rundownId r = id) (deletedRundowns playlist previous)) ++
  (filter (λ r, rundownId r = id) playlist ≫= rundownChanges previous).
Proof.
  rewrite /changesOf DiffPlaylist_eq. csimpl. rewrite filter_app. f_equal.
  - by apply (filter_fmap_key rundownId).
  - apply (filter_bind_key rundownId).
    auto using rundownChanges_rundownExternalId.
Qed.

(** With unique ids in [playlist], the records of a rundown of [playlist]
    are those the second loop pushed when it came to it. *)
Lemma changesOf_current playlist previous cur :
  NoDup (rundownIds playlist) → cur ∈ playlist →
  changesOf (rundownId cur) (changes (DiffPlaylist playlist previous)) =
  rundownChanges previous cur.
Proof.
  intros Hnd Hcur. rewrite changesOf_DiffPlaylist.
  rewrite (filter_key_unique rundownId playlist) //.
  rewrite (filter_key_absent rundownId (deletedRundowns _ _)).
  - by rewrite /= app_nil_r.
  - rewrite -/(rundownIds _) rundownIds_deletedRundowns /rundownIds.
    set_solver.
Qed.

Lemma elem_of_changes_current playlist previous cur c :
  NoDup (rundownIds playlist) → cur ∈ playlist →
  rundownExternalId c = rundownId cur →
  c ∈ changes (DiffPlaylist playlist previous) ↔
  c ∈ rundownChanges previous cur.
Proof.
  intros Hnd Hcur Hc. rewrite -(changesOf_current playlist) //.
  rewrite /changesOf list_elem_of_filter. tauto.
Qed.

(** C12. A rundown held by both snapshots (ids unique in [playlist]): its
    entry in [segmentChanges] is the resolver's result on the previous and
    the new segment order. *)
Theorem DiffPlaylist_get_both playlist previous cur prev :
  NoDup (rundownIds playlist) → cur ∈ playlist →
  findRundown previous (rundownId cur) = Some prev →
  JsMap.get (rundownId cur) (segmentChanges (DiffPlaylist playlist previous)) =
  Some (resolve (segments prev) (segments cur)).
Proof.
  intros Hnd Hcur Hprev. by rewrite get_current // (rundownSummary_both _ _ prev).
Qed.

(** C6. Emission order for a rundown held by both snapshots: its records
    are one [SegmentMoved] per moved id, then one [SegmentCreated] per
    inserted id, then one [SegmentDeleted] per deleted id, each in the order
    of the resolver's list, and nothing else. *)
Theorem DiffPlaylist_changesOf_both playlist previous cur prev :
  NoDup (rundownIds playlist) → cur ∈ playlist →
  findRundown previous (rundownId cur) = Some prev →
  changesOf (rundownId cur) (changes (DiffPlaylist playlist previous)) =
  let r := resolve (segments prev) (segments cur) in
  (PlaylistChangeSegmentMoved (rundownId cur) <$> movedSegments r) ++
  (PlaylistChangeSegmentCreated (rundownId cur) <$> insertedSegments r) ++
  (PlaylistChangeSegmentDeleted (rundownId cur) <$> deletedSegments r).
Proof.
  intros Hnd Hcur Hprev. by rewrite changesOf_current // /rundownChanges Hprev.
Qed.

(** C10. A rundown only [playlist] holds (ids unique in [playlist]): exactly
    one record, [RundownCreated], no segment-level record, and the empty
    summary in [segmentChanges]. *)
Theorem DiffPlaylist_created playlist previous cur :
  NoDup (rundownIds playlist) → cur ∈ playlist →
  rundownId cur ∉ rundownIds previous →
  changesOf (rundownId cur) (changes (DiffPlaylist playlist previous)) =
    [PlaylistChangeRundownCreated (rundownId cur)] ∧
  JsMap.get (rundownId cur) (segmentChanges (DiffPlaylist playlist previous)) =
    Some emptySegmentChanges.
Proof.
  intros Hnd Hcur Hprev. split.
  - apply findRundown_None in Hprev.
    by rewrite changesOf_current // /rundownChanges Hprev.
  - by rewrite get_current // rundownSummary_created.
Qed.

(** C11. A rundown only [previous] holds (ids unique in [previous]): exactly
    one record, [RundownDeleted], and the empty summary in
    [segmentChanges]. *)
Theorem DiffPlaylist_deleted playlist previous prev :
  NoDup (rundownIds previous) → prev ∈ previous →
  rundownId prev ∉ rundownIds playlist →
  changesOf (rundownId prev) (changes (DiffPlaylist playlist previous)) =
    [PlaylistChangeRundownDeleted (rundownId prev)] ∧
  JsMap.get (rundownId prev) (segmentChanges (DiffPlaylist playlist previous)) =
    Some emptySegmentChanges.
Proof.
  intros Hnd Hprev Hcur. split.
  - rewrite changesOf_DiffPlaylist (filter_key_absent rundownId playlist) //.
    rewrite (filter_key_unique rundownId (deletedRundowns _ _)) //.
    + by apply deletedRundowns_NoDup.
    + rewrite /deletedRundowns. set_solver.
  - rewrite get_absent // decide_True // /rundownIds. set_solver.
Qed.

(** C19. With unique ids in both snapshots the keys of [segmentChanges], in
    insertion order, are the ids of the deleted rundowns in the order of
    [previous] followed by the ids of [playlist] in its order. *)
Theorem DiffPlaylist_keys playlist previous :
  NoDup (rundownIds playlist) → NoDup (rundownIds previous) →
  JsMap.keys (segmentChanges (DiffPlaylist playlist previous)) =
  rundownIds (deletedRundowns playlist previous) ++ rundownIds playlist.
Proof.
  intros Hpl Hprev. pose proof (deletedRundowns_NoDup playlist _ Hprev) as Hdel.
  pose proof (rundownIds_deletedRundowns playlist previous) as Hin.
  rewrite DiffPlaylist_segmentChanges.
  rewrite !JsMap.keys_set_list ?currentEntries_keys ?deletedEntries_keys //=.
  apply NoDup_app. set_solver.
Qed.

(** ** Refinement, consumers and order *)

Lemma findRundown_Permutation playlist playlist' id :
  NoDup (rundownIds playlist) → playlist ≡ₚ playlist' →
  findRundown playlist' id = findRundown playlist id.
Proof. apply js_find_key_Permutation. Qed.

(** With unique ids in [playlist] the map holds what [summarySpec] owes. *)
Lemma get_summarySpec playlist previous id :
  NoDup (rundownIds playlist) →
  JsMap.get id (segmentChanges (DiffPlaylist playlist previous)) =
  summarySpec playlist previous id.
Proof.
  intros Hnd. rewrite get_segmentChanges /summarySpec /rundownSummary.
  rewrite (findRundown_Permutation playlist) ?reverse_Permutation //.
  destruct (findRundown playlist id) as [cur|] eqn:E; simpl.
  - apply findRundown_Some in E as [_ ->]. by destruct (findRundown previous id).
  - apply findRundown_None in E.
    destruct (findRundown previous id) eqn:E';
      [apply mk_is_Some, findRundown_is_Some in E'
      |apply findRundown_None in E']; case_decide; naive_solver.
Qed.

(** C13. Refinement: with unique ids in [playlist], the map returned, read
    as a finite map, is the specification [summarySpec]: the resolver's
    result for an id held by both snapshots, the empty summary for an id
    held by one, nothing for any other id. *)
Theorem DiffPlaylist_refines playlist previous id :
  NoDup (rundownIds playlist) →
  JsMap.to_gmap (segmentChanges (DiffPlaylist playlist previous)) !! id =
  summarySpec playlist previous id.
Proof. intros Hnd. by rewrite JsMap.lookup_to_gmap get_summarySpec. Qed.

(** C32. The log and the summary agree (ids unique in [playlist]): for
    every entry of [segmentChanges], the segment-level records of that
    rundown are one [SegmentMoved] per id of [movedSegments], then one
    [SegmentCreated] per id of [insertedSegments], then one [SegmentDeleted]
    per id of [deletedSegments] of the entry. *)
Theorem DiffPlaylist_changes_summary playlist previous id sc :
  NoDup (rundownIds playlist) →
  JsMap.get id (segmentChanges (DiffPlaylist playlist previous)) = Some sc →
  filter (λ c, segmentLevel c)
    (changesOf id (changes (DiffPlaylist playlist previous))) =
  (PlaylistChangeSegmentMoved id <$> movedSegments sc) ++
  (PlaylistChangeSegmentCreated id <$> insertedSegments sc) ++
  (PlaylistChangeSegmentDeleted id <$> deletedSegments sc).
Proof.
  intros Hnd. rewrite get_summarySpec // /summarySpec.
  destruct (findRundown playlist id) as [cur|] eqn:Ecur.
  - apply findRundown_Some in Ecur as [Hcur <-].
    rewrite changesOf_current // /rundownChanges.
    destruct (findRundown previous (rundownId cur)); intros [= <-]; [|done].
    apply filter_all. intros c. rewrite !elem_of_app !list_elem_of_fmap.
    by intros [(? & -> & _)|[(? & -> & _)|(? & -> & _)]].
  - apply findRundown_None in Ecur.
    destruct (findRundown previous id); intros [= <-].
    rewrite changesOf_DiffPlaylist (filter_key_absent rundownId playlist) //.
    rewrite app_nil_r. apply filter_none.
    intros c (r0 & -> & _)%list_elem_of_fmap. simpl. tauto.
Qed.

(** C17. A record is segment-level exactly when its rundown is held by
    both snapshots: rundown-level and segment-level records never concern
    the same rundown id. *)
Theorem DiffPlaylist_segmentLevel playlist previous :
  Forall (λ c,
    segmentLevel c =
    bool_decide (rundownExternalId c ∈ rundownIds previous ∧
                 rundownExternalId c ∈ rundownIds playlist))
    (changes (DiffPlaylist playlist previous)).
Proof.
  apply Forall_forall.
  intros c [(r & ? & ? & ->)|(r & Hr & Hc)]%elem_of_changes; simpl.
  - symmetry. apply bool_decide_eq_false. tauto.
  - apply elem_of_rundownChanges in Hc.
    assert (rundownId r ∈ rundownIds playlist) by (rewrite /rundownIds; set_solver).
    destruct (findRundown previous (rundownId r)) as [prev|] eqn:E.
    + assert (rundownId r ∈ rundownIds previous).
      { apply findRundown_is_Some. by rewrite E. }
      destruct Hc as [(? & -> & _)|[(? & -> & _)|(? & -> & _)]]; simpl;
        symmetry; by apply bool_decide_eq_true.
    + apply findRundown_None in E. subst c. simpl.
      symmetry. apply bool_decide_eq_false. tauto.
Qed.

(** The rundown-level records, by membership. *)
Lemma elem_of_changes_RundownDeleted playlist previous id :
  PlaylistChangeRundownDeleted id ∈ changes (DiffPlaylist playlist previous) ↔
  id ∈ rundownIds previous ∧ id ∉ rundownIds playlist.
Proof.
  rewrite elem_of_changes /rundownIds. split; [|set_solver].
  intros [(r & ? & ? & [= ->])|(r & _ & Hc)]; [set_solver|].
  apply elem_of_rundownChanges in Hc. destruct (findRundown _ _); naive_solver.
Qed.

Lemma elem_of_changes_RundownCreated playlist previous id :
  PlaylistChangeRundownCreated id ∈ changes (DiffPlaylist playlist previous) ↔
  id ∈ rundownIds playlist ∧ id ∉ rundownIds previous.
Proof.
  rewrite elem_of_changes. split.
  - intros [(r & ? & ? & [=])|(r & Hr & Hc)].
    apply elem_of_rundownChanges in Hc.
    destruct (findRundown _ _) eqn:E; [naive_solver|].
    injection Hc as Hid. subst id. apply findRundown_None in E.
    rewrite /rundownIds. set_solver.
  - rewrite {1}/rundownIds. intros [(r & Hid & Hr)%list_elem_of_fmap Hp].
    subst id. right. exists r. split; [done|]. apply elem_of_rundownChanges.
    by apply findRundown_None in Hp as ->.
Qed.

(** C16. The rundown-level records account for the rundown ids: an id is
    in [playlist] exactly when it was in [previous] and is not reported
    deleted, or is reported created. *)
Theorem DiffPlaylist_rundowns_sound playlist previous id :
  id ∈ rundownIds playlist ↔
  (id ∈ rundownIds previous ∧
   PlaylistChangeRundownDeleted id ∉ changes (DiffPlaylist playlist previous)) ∨
  PlaylistChangeRundownCreated id ∈ changes (DiffPlaylist playlist previous).
Proof.
  rewrite elem_of_changes_RundownDeleted elem_of_changes_RundownCreated.
  destruct (decide (id ∈ rundownIds previous)),
    (decide (id ∈ rundownIds playlist)); tauto.
Qed.

Lemma rundownChanges_Permutation previous previous' rundown :
  NoDup (rundownIds previous) → previous ≡ₚ previous' →
  rundownChanges previous' rundown = rundownChanges previous rundown.
Proof.
  intros. by rewrite /rundownChanges (findRundown_Permutation previous).
Qed.

Lemma deletedRundowns_Permutation playlist playlist' previous previous' :
  playlist ≡ₚ playlist' → previous ≡ₚ previous' →
  deletedRundowns playlist' previous' ≡ₚ deletedRundowns playlist previous.
Proof.
  intros Hpl Hprev. rewrite /deletedRundowns -Hprev.
  rewrite (filter_iff _ (λ r, rundownId r ∉ rundownIds playlist)) //.
  intros r _. by rewrite /rundownIds Hpl.
Qed.

(** C18. The result does not depend on the order of the rundowns in the
    snapshots (ids unique): permuting [playlist] and [previous] permutes
    [changes] and leaves every entry of [segmentChanges] as it is. *)
Theorem DiffPlaylist_Permutation playlist playlist' previous previous' :
  NoDup (rundownIds playlist) → NoDup (rundownIds previous) →
  playlist ≡ₚ playlist' → previous ≡ₚ previous' →
  changes (DiffPlaylist playlist' previous') ≡ₚ
    changes (DiffPlaylist playlist previous) ∧
  segmentChanges (DiffPlaylist playlist' previous') ≡ₘ
    segmentChanges (DiffPlaylist playlist previous).
Proof.
  intros Hpl Hprev Hperm Hperm'. split.
  - rewrite !DiffPlaylist_eq. csimpl. apply Permutation_app.
    + by apply fmap_Permutation, deletedRundowns_Permutation.
    + rewrite -Hperm.
      rewrite (list_bind_ext _ (rundownChanges previous) _ playlist) //.
      intros r. by apply rundownChanges_Permutation.
  - intros id. rewrite !get_summarySpec //; [|by rewrite /rundownIds -Hperm].
    rewrite /summarySpec (findRundown_Permutation playlist playlist') //.
    by rewrite (findRundown_Permutation previous previous').
Qed.

End differ.

(** ** What the contract of the resolver gives *)

Section differ_laws.
Context {R : MoveSetResolver} `{!ResolverLaws R}.
Implicit Types (playlist previous : ResolvedPlaylist).
Implicit Types (cur prev : ResolvedPlaylistRundown).

(** C3. Partition: for a rundown held by both snapshots the four lists
    stored in [segmentChanges] cover the segment ids of the previous and of
    the new order, and no id is in two of them. *)
Theorem DiffPlaylist_partition playlist previous cur prev :
  NoDup (rundownIds playlist) → cur ∈ playlist →
  findRundown previous (rundownId cur) = Some prev →
  ∃ sc,
    JsMap.get (rundownId cur)
      (segmentChanges (DiffPlaylist playlist previous)) = Some sc ∧
    partitions sc (segments prev) (segments cur).
Proof.
  intros. eexists. split; [by apply get_current|].
  rewrite (rundownSummary_both _ _ prev) //. apply resolve_partitions.
Qed.

(** C4. Minimality: for a rundown held by both snapshots,
    [notMovedSegments] is a subsequence of the previous and of the new order
    and no common subsequence is longer. *)
Theorem DiffPlaylist_notMoved_longest playlist previous cur prev :
  NoDup (rundownIds playlist) → cur ∈ playlist →
  findRundown previous (rundownId cur) = Some prev →
  ∃ sc,
    JsMap.get (rundownId cur)
      (segmentChanges (DiffPlaylist playlist previous)) = Some sc ∧
    is_lcs (notMovedSegments sc) (segments prev) (segments cur).
Proof.
  intros. eexists. split; [by apply get_current|].
  rewrite (rundownSummary_both _ _ prev) //. apply resolve_notMoved_lcs.
Qed.

Lemma rundownSummary_self playlist cur :
  NoDup (rundownIds playlist) → cur ∈ playlist →
  rundownSummary playlist cur = unchangedSegments (segments cur).
Proof.
  intros. by rewrite /rundownSummary findRundown_unique // resolve_self.
Qed.

Lemma rundownChanges_self playlist cur :
  NoDup (rundownIds playlist) → cur ∈ playlist →
  rundownChanges playlist cur = [].
Proof.
  intros. by rewrite /rundownChanges findRundown_unique // resolve_self.
Qed.

(** C5. No-op: the diff of a snapshot with unique rundown ids against
    itself has no change record, and its map holds, for every rundown in
    order, all the segments as not moved and nothing else. *)
Theorem DiffPlaylist_self playlist :
  NoDup (rundownIds playlist) →
  DiffPlaylist playlist playlist =
  {| changes := [];
     segmentChanges :=
       (λ r, (rundownId r, unchangedSegments (segments r))) <$> playlist |}.
Proof.
  intros Hnd. rewrite DiffPlaylist_eq.
  rewrite /deletedEntries /deletedRundowns filter_none;
    [|rewrite /rundownIds; set_solver].
  f_equal.
  - apply nil_no_elem. intros c (r & Hc & Hr)%list_elem_of_bind.
    rewrite rundownChanges_self // in Hc. by apply elem_of_nil in Hc.
  - rewrite JsMap.set_list_fresh /= ?currentEntries_keys // /currentEntries.
    apply list_fmap_ext. intros i r Hr%list_elem_of_lookup_2.
    by rewrite rundownSummary_self.
Qed.

(** C15. The segment-level records account for the segment ids of a rundown
    held by both snapshots: an id is in the new order exactly when it was in
    the previous order and is not reported deleted, or is reported
    created. *)
Theorem DiffPlaylist_segments_sound playlist previous cur prev s :
  NoDup (rundownIds playlist) → cur ∈ playlist →
  findRundown previous (rundownId cur) = Some prev →
  s ∈ segments cur ↔
  (s ∈ segments prev ∧
   PlaylistChangeSegmentDeleted (rundownId cur) s ∉
     changes (DiffPlaylist playlist previous)) ∨
  PlaylistChangeSegmentCreated (rundownId cur) s ∈
    changes (DiffPlaylist playlist previous).
Proof.
  intros Hnd Hcur Hprev.
  rewrite !(elem_of_changes_current _ _ cur) // !elem_of_rundownChanges Hprev.
  pose proof (resolve_inserted (segments prev) (segments cur) s).
  pose proof (resolve_deleted (segments prev) (segments cur) s).
  destruct (decide (s ∈ segments prev)), (decide (s ∈ segments cur));
    naive_solver.
Qed.

(** C21. A segment is reported moved only if both orders hold it and it is
    not among the segments left in place. *)
Theorem DiffPlaylist_moved_sound playlist previous cur prev s :
  NoDup (rundownIds playlist) → cur ∈ playlist →
  findRundown previous (rundownId cur) = Some prev →
  PlaylistChangeSegmentMoved (rundownId cur) s ∈
    changes (DiffPlaylist playlist previous) →
  s ∈ segments prev ∧ s ∈ segments cur ∧
  s ∉ notMovedSegments (resolve (segments prev) (segments cur)).
Proof.
  intros Hnd Hcur Hprev.
  rewrite (elem_of_changes_current _ _ cur) // elem_of_rundownChanges Hprev.
  pose proof (resolve_common (segments prev) (segments cur) s).
  pose proof (resolve_moved_notMoved (segments prev) (segments cur) s).
  naive_solver.
Qed.

(** C14. The number of moves is minimal: for a rundown held by both
    snapshots whose segment ids are unique, the number of [SegmentMoved]
    records is the number of common ids less the length of a longest common
    subsequence of the two orders. *)
Theorem DiffPlaylist_moved_count playlist previous cur prev :
  NoDup (rundownIds playlist) → cur ∈ playlist →
  findRundown previous (rundownId cur) = Some prev →
  NoDup (segments prev) → NoDup (segments cur) →
  length (filter
    (λ c, type c = PlaylistChangeType.PlaylistChangeSegmentMoved)
    (changesOf (rundownId cur) (changes (DiffPlaylist playlist previous)))) +
  lcs_len (segments prev) (segments cur) =
  length (commonSegments (segments prev) (segments cur)).
Proof.
  intros Hnd Hcur Hprev Hp Hc.
  rewrite changesOf_current // /rundownChanges Hprev /= !filter_app.
  rewrite filter_all; [|set_solver].
  rewrite !filter_none; [|set_solver..].
  by rewrite !app_nil_r length_fmap resolve_moved_length.
Qed.

(** The segment-level records that report a segment created or deleted, by
    membership. *)
Lemma elem_of_changes_SegmentCreated playlist previous id s :
  PlaylistChangeSegmentCreated id s ∈ changes (DiffPlaylist playlist previous) ↔
  ∃ cur prev, cur ∈ playlist ∧ rundownId cur = id ∧
    findRundown previous id = Some prev ∧
    s ∈ segments cur ∧ s ∉ segments prev.
Proof.
  rewrite elem_of_changes. split.
  - intros [(r & _ & _ & [=])|(cur & Hcur & Hc)].
    apply elem_of_rundownChanges in Hc.
    destruct (findRundown previous (rundownId cur)) as [prev|] eqn:E; [|done].
    destruct Hc as [(? & [=] & _)|[(? & [= -> ->] & Hs)|(? & [=] & _)]].
    apply resolve_inserted in Hs as [??]. by exists cur, prev.
  - intros (cur & prev & Hcur & <- & Hprev & Hs). right. exists cur.
    split; [done|]. rewrite elem_of_rundownChanges Hprev. right. left.
    exists s. split; [done|]. by apply resolve_inserted.
Qed.

Lemma elem_of_changes_SegmentDeleted playlist previous id s :
  PlaylistChangeSegmentDeleted id s ∈ changes (DiffPlaylist playlist previous) ↔
  ∃ cur prev, cur ∈ playlist ∧ rundownId cur = id ∧
    findRundown previous id = Some prev ∧
    s ∈ segments prev ∧ s ∉ segments cur.
Proof.
  rewrite elem_of_changes. split.
  - intros [(r & _ & _ & [=])|(cur & Hcur & Hc)].
    apply elem_of_rundownChanges in Hc.
    destruct (findRundown previous (rundownId cur)) as [prev|] eqn:E; [|done].
    destruct Hc as [(? & [=] & _)|[(? & [=] & _)|(? & [= -> ->] & Hs)]].
    apply resolve_deleted in Hs as [??]. by exists cur, prev.
  - intros (cur & prev & Hcur & <- & Hprev & Hs). right. exists cur.
    split; [done|]. rewrite elem_of_rundownChanges Hprev. right. right.
    exists s. split; [done|]. by apply resolve_deleted.
Qed.

(** C33. Undo: with unique rundown ids, exchanging the two snapshots
    exchanges creation and deletion: a rundown, or a segment of a rundown
    held by both, is reported created by the diff from [previous] to
    [playlist] exactly when the diff from [playlist] to [previous] reports
    it deleted. *)
Theorem DiffPlaylist_reverse playlist previous id s :
  NoDup (rundownIds playlist) → NoDup (rundownIds previous) →
  (PlaylistChangeRundownCreated id ∈ changes (DiffPlaylist playlist previous) ↔
   PlaylistChangeRundownDeleted id ∈ changes (DiffPlaylist previous playlist)) ∧
  (PlaylistChangeSegmentCreated id s ∈ changes (DiffPlaylist playlist previous) ↔
   PlaylistChangeSegmentDeleted id s ∈ changes (DiffPlaylist previous playlist)).
Proof.
  intros Hpl Hprev. split.
  { by rewrite elem_of_changes_RundownCreated elem_of_changes_RundownDeleted. }
  rewrite elem_of_changes_SegmentCreated elem_of_changes_SegmentDeleted.
  split; intros (r1 & r2 & Hr1 & <- & [Hr2 Hid]%findRundown_Some & Hs);
    exists r2, r1; split_and!; try done; try tauto;
    by apply findRundown_unique.
Qed.

(** ** Silence, and what breaks it *)

(** C24. Unique rundown ids are necessary for the no-op property: when a
    rundown holds a segment that the first rundown with its id lacks, the
    diff of the snapshot against itself reports that segment created. *)
Theorem DiffPlaylist_self_duplicate playlist first cur s :
  cur ∈ playlist → findRundown playlist (rundownId cur) = Some first →
  s ∈ segments cur → s ∉ segments first →
  PlaylistChangeSegmentCreated (rundownId cur) s ∈
    changes (DiffPlaylist playlist playlist).
Proof.
  intros Hcur Hfirst Hs Hs'. apply elem_of_changes. right. exists cur.
  split; [done|]. rewrite elem_of_rundownChanges Hfirst. right. left.
  exists s. split; [done|]. by apply resolve_inserted.
Qed.

Lemma rundownChanges_not_deleted previous cur id :
  PlaylistChangeRundownDeleted id ∉ rundownChanges previous cur.
Proof. rewrite elem_of_rundownChanges. destruct (findRundown _ _); naive_solver. Qed.

(** The records of one rundown are distinct when segment ids are unique. *)
Lemma rundownChanges_NoDup previous cur :
  NoDup (segments cur) → (∀ prev, prev ∈ previous → NoDup (segments prev)) →
  NoDup (rundownChanges previous cur).
Proof.
  intros Hc Hp. rewrite /rundownChanges.
  destruct (findRundown _ _) as [prev|] eqn:E; [|apply NoDup_singleton].
  apply findRundown_Some in E as [Hin _].
  destruct (resolve_NoDup (segments prev) (segments cur)) as (? & ? & ?);
    [by apply Hp|done|].
  rewrite !NoDup_app.
  split_and!; try (by apply NoDup_fmap_2; [apply _|]); set_solver.
Qed.

(** A rundown of [playlist] for which nothing is pushed is a rundown of
    [previous], segment order included. *)
Lemma rundownChanges_nil previous cur :
  NoDup (segments cur) → (∀ prev, prev ∈ previous → NoDup (segments prev)) →
  rundownChanges previous cur = [] → cur ∈ previous.
Proof.
  intros Hc Hp. rewrite /rundownChanges.
  destruct (findRundown previous (rundownId cur)) as [prev|] eqn:E; [|done].
  apply findRundown_Some in E as [Hin Hid].
  intros (Hm%fmap_nil_inv &
          (Hi%fmap_nil_inv & Hd%fmap_nil_inv)%app_eq_nil)%app_eq_nil.
  rewrite (rundown_eq cur prev) //. symmetry. apply resolve_silent; auto.
Qed.

(** C31. No change is reported twice: when rundown ids are unique in each
    snapshot and segment ids are unique in each rundown, the records of
    [changes] are pairwise distinct. *)
Theorem DiffPlaylist_changes_NoDup playlist previous :
  wf_playlist playlist → wf_playlist previous →
  NoDup (changes (DiffPlaylist playlist previous)).
Proof.
  intros Hpl Hprev. rewrite DiffPlaylist_eq. csimpl. apply NoDup_app. split_and!.
  - rewrite list_fmap_compose. apply NoDup_fmap_2; [apply _|].
    apply deletedRundowns_NoDup, Hprev.
  - intros c (r & -> & _)%list_elem_of_fmap (cur & Hc & _)%list_elem_of_bind.
    by apply rundownChanges_not_deleted in Hc.
  - apply NoDup_bind; [|intros cur Hcur|by apply wf_playlist_NoDup].
    + intros r1 r2 c Hr1 Hr2 Hc1 Hc2.
      apply (key_unique_inj rundownId playlist); [apply Hpl|done..|].
      pose proof (rundownChanges_rundownExternalId previous r1) as H1.
      pose proof (rundownChanges_rundownExternalId previous r2) as H2.
      rewrite Forall_forall in H1. rewrite Forall_forall in H2.
      by rewrite -(H1 c) // -(H2 c).
    + apply rundownChanges_NoDup; [by apply (wf_playlist_segments playlist)|].
      intros prev Hin. by apply (wf_playlist_segments previous).
Qed.

(** C23. The differ is silent exactly when nothing changed: for snapshots
    with unique rundown ids and unique segment ids, [changes] is empty if
    and only if the two snapshots hold the same rundowns, with the same
    segment orders, up to the order of the rundowns. *)
Theorem DiffPlaylist_changes_nil playlist previous :
  wf_playlist playlist → wf_playlist previous →
  changes (DiffPlaylist playlist previous) = [] ↔ playlist ≡ₚ previous.
Proof.
  intros Hpl Hprev. split.
  - intros Hnil.
    assert (∀ c, c ∉ changes (DiffPlaylist playlist previous)) as Hno.
    { intros c. rewrite Hnil. apply not_elem_of_nil. }
    assert (∀ cur, cur ∈ playlist → cur ∈ previous) as Hsub.
    { intros cur Hcur. apply rundownChanges_nil.
      - by apply (wf_playlist_segments playlist).
      - intros prev. by apply (wf_playlist_segments previous).
      - apply nil_no_elem. intros c Hc. apply (Hno c), elem_of_changes. eauto. }
    apply NoDup_Permutation; [by apply wf_playlist_NoDup..|].
    intros r. split; [apply Hsub|]. intros Hr.
    destruct (decide (rundownId r ∈ rundownIds playlist)) as [Hid|Hid].
    + apply list_elem_of_fmap in Hid as (cur & Hid & Hcur).
      rewrite (key_unique_inj rundownId previous r cur) //; [apply Hprev|].
      by apply Hsub.
    + destruct (Hno (PlaylistChangeRundownDeleted (rundownId r))).
      apply elem_of_changes. left. eauto.
  - intros Hperm. rewrite DiffPlaylist_eq. csimpl.
    rewrite /deletedRundowns filter_none /=.
    + apply nil_no_elem. intros c (r & Hc & Hr)%list_elem_of_bind.
      rewrite (rundownChanges_Permutation playlist previous) // in Hc;
        [|apply Hpl].
      rewrite rundownChanges_self // in Hc; [by apply elem_of_nil in Hc|].
      apply Hpl.
    + intros r Hr. rewrite /rundownIds Hperm. set_solver.
Qed.

End differ_laws.

(** ** The differ with the resolver of the specification

    From here on [resolve] is [GetMovedSegments]. *)

(** The two snapshots of the examples of section 8 of the specification, in
    one playlist: [R1] is held by both with the segment orders of the first
    example, [R3] is only in the previous snapshot, [R2] only in the new
    one. *)
Definition example_previous : ResolvedPlaylist :=
  [mkRundown "R1" ["A"; "B"; "C"; "D"]; mkRundown "R3" ["X"; "Y"]].

Definition example_playlist : ResolvedPlaylist :=
  [mkRundown "R1" ["A"; "C"; "B"; "D"; "E"]; mkRundown "R2" ["P"; "Q"; "R"]].

(** A snapshot in which two rundowns share an id. *)
Definition example_duplicate : ResolvedPlaylist :=
  [mkRundown "R1" ["A"]; mkRundown "R1" ["B"]].

(** The examples of section 8 of the specification, end to end: [R3] is
    reported deleted first, then [C] moved and [E] created in [R1], then
    [R2] created with no record for its three segments; the map holds the
    three summaries in that order. *)
Example DiffPlaylist_spec_example :
  DiffPlaylist example_playlist example_previous =
  {| changes :=
       [PlaylistChangeRundownDeleted "R3";
        PlaylistChangeSegmentMoved "R1" "C";
        PlaylistChangeSegmentCreated "R1" "E";
        PlaylistChangeRundownCreated "R2"];
     segmentChanges :=
       [("R3", emptySegmentChanges);
        ("R1", {| movedSegments := ["C"]; notMovedSegments := ["A"; "B"; "D"];
                  insertedSegments := ["E"]; deletedSegments := [] |});
        ("R2", emptySegmentChanges)] |}.
Proof. by vm_compute. Qed.

(** C22. With [GetMovedSegments], which fills the dynamic-programming table
    and walks it, the segments left in place for a rundown held by both
    snapshots are the reference longest common subsequence of the two orders
    restricted to their common ids. *)
Theorem DiffPlaylist_notMoved_lcs playlist previous cur prev :
  NoDup (rundownIds playlist) → cur ∈ playlist →
  findRundown previous (rundownId cur) = Some prev →
  notMovedSegments <$>
    JsMap.get (rundownId cur) (segmentChanges (DiffPlaylist playlist previous)) =
  Some (lcs (reducedOrder (segments prev) (segments cur))
            (reducedOrder (segments cur) (segments prev))).
Proof.
  intros. by rewrite get_current // (rundownSummary_both _ _ prev) //= lcs_dp_lcs.
Qed.

(** ** Witnesses *)

Lemma DiffPlaylist_get_both_witness :
  JsMap.get "R1" (segmentChanges (DiffPlaylist example_playlist example_previous)) =
  Some (resolve ["A"; "B"; "C"; "D"] ["A"; "C"; "B"; "D"; "E"]).
Proof.
  apply (DiffPlaylist_get_both example_playlist example_previous
    (mkRundown "R1" ["A"; "C"; "B"; "D"; "E"])
    (mkRundown "R1" ["A"; "B"; "C"; "D"])); compute_done.
Defined.

Lemma DiffPlaylist_changesOf_both_witness :
  changesOf "R1" (changes (DiffPlaylist example_playlist example_previous)) =
  [PlaylistChangeSegmentMoved "R1" "C"; PlaylistChangeSegmentCreated "R1" "E"].
Proof.
  etrans; [apply (DiffPlaylist_changesOf_both example_playlist example_previous
    (mkRundown "R1" ["A"; "C"; "B"; "D"; "E"])
    (mkRundown "R1" ["A"; "B"; "C"; "D"])); compute_done|by vm_compute].
Defined.

Lemma DiffPlaylist_created_witness :
  changesOf "R2" (changes (DiffPlaylist example_playlist example_previous)) =
    [PlaylistChangeRundownCreated "R2"] ∧
  JsMap.get "R2" (segmentChanges (DiffPlaylist example_playlist example_previous)) =
    Some emptySegmentChanges.
Proof.
  apply (DiffPlaylist_created example_playlist example_previous
    (mkRundown "R2" ["P"; "Q"; "R"])); compute_done.
Defined.

Lemma DiffPlaylist_deleted_witness :
  changesOf "R3" (changes (DiffPlaylist example_playlist example_previous)) =
    [PlaylistChangeRundownDeleted "R3"] ∧
  JsMap.get "R3" (segmentChanges (DiffPlaylist example_playlist example_previous)) =
    Some emptySegmentChanges.
Proof.
  apply (DiffPlaylist_deleted example_playlist example_previous
    (mkRundown "R3" ["X"; "Y"])); compute_done.
Defined.

Lemma DiffPlaylist_keys_witness :
  JsMap.keys (segmentChanges (DiffPlaylist example_playlist example_previous)) =
  ["R3"; "R1"; "R2"].
Proof.
  apply (DiffPlaylist_keys example_playlist example_previous); compute_done.
Defined.

Lemma DiffPlaylist_partition_witness :
  ∃ sc,
    JsMap.get "R1"
      (segmentChanges (DiffPlaylist example_playlist example_previous)) =
      Some sc ∧
    partitions sc ["A"; "B"; "C"; "D"] ["A"; "C"; "B"; "D"; "E"].
Proof.
  apply (DiffPlaylist_partition example_playlist example_previous
    (mkRundown "R1" ["A"; "C"; "B"; "D"; "E"])
    (mkRundown "R1" ["A"; "B"; "C"; "D"])); compute_done.
Defined.

Lemma DiffPlaylist_notMoved_longest_witness :
  ∃ sc,
    JsMap.get "R1"
      (segmentChanges (DiffPlaylist example_playlist example_previous)) =
      Some sc ∧
    is_lcs (notMovedSegments sc)
      ["A"; "B"; "C"; "D"] ["A"; "C"; "B"; "D"; "E"].
Proof.
  apply (DiffPlaylist_notMoved_longest example_playlist example_previous
    (mkRundown "R1" ["A"; "C"; "B"; "D"; "E"])
    (mkRundown "R1" ["A"; "B"; "C"; "D"])); compute_done.
Defined.

Lemma DiffPlaylist_self_witness :
  DiffPlaylist example_playlist example_playlist =
  {| changes := [];
     segmentChanges :=
       [("R1", unchangedSegments ["A"; "C"; "B"; "D"; "E"]);
        ("R2", unchangedSegments ["P"; "Q"; "R"])] |}.
Proof. apply (DiffPlaylist_self example_playlist). compute_done. Defined.

Lemma DiffPlaylist_notMoved_lcs_witness :
  notMovedSegments <$>
    JsMap.get "R1"
      (segmentChanges (DiffPlaylist example_playlist example_previous)) =
  Some ["A"; "B"; "D"].
Proof.
  apply (DiffPlaylist_notMoved_lcs example_playlist example_previous
    (mkRundown "R1" ["A"; "C"; "B"; "D"; "E"])
    (mkRundown "R1" ["A"; "B"; "C"; "D"])); compute_done.
Defined.

Lemma DiffPlaylist_refines_witness :
  JsMap.to_gmap (segmentChanges (DiffPlaylist example_playlist example_previous))
    !! "R3" = Some emptySegmentChanges.
Proof.
  apply (DiffPlaylist_refines example_playlist example_previous "R3").
  compute_done.
Defined.

Lemma DiffPlaylist_Permutation_witness :
  changes (DiffPlaylist (reverse example_playlist) (reverse example_previous)) ≡ₚ
    changes (DiffPlaylist example_playlist example_previous) ∧
  segmentChanges
    (DiffPlaylist (reverse example_playlist) (reverse example_previous)) ≡ₘ
    segmentChanges (DiffPlaylist example_playlist example_previous).
Proof.
  apply (DiffPlaylist_Permutation example_playlist (reverse example_playlist)
    example_previous (reverse example_previous));
    [compute_done|compute_done|symmetry; apply reverse_Permutation..].
Defined.

Lemma DiffPlaylist_segments_sound_witness :
  "E" ∈ ["A"; "C"; "B"; "D"; "E"] ↔
  ("E" ∈ ["A"; "B"; "C"; "D"] ∧
   PlaylistChangeSegmentDeleted "R1" "E" ∉
     changes (DiffPlaylist example_playlist example_previous)) ∨
  PlaylistChangeSegmentCreated "R1" "E" ∈
    changes (DiffPlaylist example_playlist example_previous).
Proof.
  apply (DiffPlaylist_segments_sound example_playlist example_previous
    (mkRundown "R1" ["A"; "C"; "B"; "D"; "E"])
    (mkRundown "R1" ["A"; "B"; "C"; "D"]) "E"); compute_done.
Defined.

Lemma DiffPlaylist_moved_sound_witness :
  "C" ∈ ["A"; "B"; "C"; "D"] ∧ "C" ∈ ["A"; "C"; "B"; "D"; "E"] ∧
  "C" ∉ notMovedSegments
          (resolve ["A"; "B"; "C"; "D"] ["A"; "C"; "B"; "D"; "E"]).
Proof.
  apply (DiffPlaylist_moved_sound example_playlist example_previous
    (mkRundown "R1" ["A"; "C"; "B"; "D"; "E"])
    (mkRundown "R1" ["A"; "B"; "C"; "D"]) "C"); compute_done.
Defined.

Lemma DiffPlaylist_moved_count_witness :
  length (filter
    (λ c, type c = PlaylistChangeType.PlaylistChangeSegmentMoved)
    (changesOf "R1" (changes (DiffPlaylist example_playlist example_previous)))) +
  lcs_len ["A"; "B"; "C"; "D"] ["A"; "C"; "B"; "D"; "E"] =
  length (commonSegments ["A"; "B"; "C"; "D"] ["A"; "C"; "B"; "D"; "E"]).
Proof.
  apply (DiffPlaylist_moved_count example_playlist example_previous
    (mkRundown "R1" ["A"; "C"; "B"; "D"; "E"])
    (mkRundown "R1" ["A"; "B"; "C"; "D"])); compute_done.
Defined.

Lemma DiffPlaylist_self_duplicate_witness :
  PlaylistChangeSegmentCreated "R1" "B" ∈
    changes (DiffPlaylist example_duplicate example_duplicate).
Proof.
  apply (DiffPlaylist_self_duplicate example_duplicate
    (mkRundown "R1" ["A"]) (mkRundown "R1" ["B"]) "B"); compute_done.
Defined.

Lemma DiffPlaylist_changes_NoDup_witness :
  NoDup (changes (DiffPlaylist example_playlist example_previous)).
Proof.
  apply (DiffPlaylist_changes_NoDup example_playlist example_previous);
    compute_done.
Defined.

Lemma DiffPlaylist_changes_nil_witness :
  changes (DiffPlaylist example_playlist (reverse example_playlist)) = [] ↔
  example_playlist ≡ₚ reverse example_playlist.
Proof.
  apply (DiffPlaylist_changes_nil example_playlist (reverse example_playlist));
    compute_done.
Defined.

Lemma DiffPlaylist_changes_summary_witness :
  filter (λ c, segmentLevel c)
    (changesOf "R1" (changes (DiffPlaylist example_playlist example_previous))) =
  [PlaylistChangeSegmentMoved "R1" "C"; PlaylistChangeSegmentCreated "R1" "E"].
Proof.
  apply (DiffPlaylist_changes_summary example_playlist example_previous "R1"
    {| movedSegments := ["C"]; notMovedSegments := ["A"; "B"; "D"];
       insertedSegments := ["E"]; deletedSegments := [] |}); compute_done.
Defined.

Lemma DiffPlaylist_reverse_witness :
  (PlaylistChangeRundownCreated "R2" ∈
     changes (DiffPlaylist example_playlist example_previous) ↔
   PlaylistChangeRundownDeleted "R2" ∈
     changes (DiffPlaylist example_previous example_playlist)) ∧
  (PlaylistChangeSegmentCreated "R1" "E" ∈
     changes (DiffPlaylist example_playlist example_previous) ↔
   PlaylistChangeSegmentDeleted "R1" "E" ∈
     changes (DiffPlaylist example_previous example_playlist)).
Proof.
  split;
    [apply (DiffPlaylist_reverse example_playlist example_previous "R2" "E")
    |apply (DiffPlaylist_reverse example_playlist example_previous "R1" "E")];
    compute_done.
Defined.
