(* ===== verification/Parse.v ===== *)
(** * [ParsedINewsIntoSegments.parse]

    [src/src/classes/ParsedINewsToSegments.ts]: the interface
    [IParsedElement] and the static method [parse], which builds one
    [RundownSegment] per raw story in input order.  The loop is modelled as
    it is written ([parseStep] pushes on the array built so far and reads its
    length for the rank); [parse_imap] is its closed form.

    [IRawStory] and [RundownSegment] are imported by the source file: the
    first is modelled by the three fields [parse] reads, the second by the
    seven arguments its constructor receives.  The story object and the
    modification marker are carried as they are, so their types are
    parameters, and so is the accessor [story.story.id]. *)

From S2P Require Import Prelude.

(** [IParsedElement]: every field of [data] but [float] is optional. *)
Module IParsedElement.

Record data_t : Type := mkData {
  id : option string;
  name : option string;
  type : option string;
  float : string;
  script : option string;
  objectType : option string;
  duration : option string;
  clipName : option string;
}.

Record t : Type := mk { data : data_t }.

#[global] Instance data_eq_dec : EqDecision data_t.
Proof. solve_decision. Defined.

#[global] Instance eq_dec : EqDecision t.
Proof. solve_decision. Defined.

End IParsedElement.

(** [IRawStory], as [parse] reads it. *)
Module IRawStory.

Record t (Story Modified : Type) : Type := mk {
  story : Story;
  modified : Modified;
  storyName : option string;
}.

Arguments mk {_ _} _ _ _.
Arguments story {_ _} _.
Arguments modified {_ _} _.
Arguments storyName {_ _} _.

End IRawStory.

(** [RundownSegment], as [parse] constructs it. *)
Module RundownSegment.

Record t (Story Modified : Type) : Type := mk {
  rundownId : string;
  iNewsStory : Story;
  modified : Modified;
  externalId : string;
  rank : nat;
  name : string;
  float : bool;
}.

Arguments mk {_ _} _ _ _ _ _ _ _.
Arguments rundownId {_ _} _.
Arguments iNewsStory {_ _} _.
Arguments modified {_ _} _.
Arguments externalId {_ _} _.
Arguments rank {_ _} _.
Arguments name {_ _} _.
Arguments float {_ _} _.

End RundownSegment.

Module ParsedINewsIntoSegments.

Section parse.
Context {Story Modified : Type}.
(** [story.story.id] *)
Context (story_id : Story → option string).
Implicit Types (sheetId : string) (inewsRaw : list (IRawStory.t Story Modified)).
Implicit Types (segments : list (RundownSegment.t Story Modified)).
Implicit Types (story : IRawStory.t Story Modified).

(** The body of [inewsRaw.forEach(story => ...)]. *)
Definition parseStep sheetId segments story :
    list (RundownSegment.t Story Modified) :=
  let segment :=
    RundownSegment.mk
      sheetId
      (IRawStory.story story)
      (IRawStory.modified story)
      (js_or (story_id (IRawStory.story story)) "")
      (length segments)
      (js_or (IRawStory.storyName story) "")
      false in
  js_push segments segment.

Definition parse sheetId inewsRaw : list (RundownSegment.t Story Modified) :=
  let segments := [] in
  js_forEach (parseStep sheetId) inewsRaw segments.

(** The segment of the story at index [i]. *)
Definition segmentOf sheetId (i : nat) story : RundownSegment.t Story Modified :=
  RundownSegment.mk sheetId (IRawStory.story story) (IRawStory.modified story)
    (default "" (story_id (IRawStory.story story))) i
    (default "" (IRawStory.storyName story)) false.

(** ** The loop and its closed form *)

Lemma parseStep_eq sheetId segments story :
  parseStep sheetId segments story =
  segments ++ [segmentOf sheetId (length segments) story].
Proof. by rewrite /parseStep /segmentOf /js_push !js_or_empty. Qed.

Lemma parse_loop sheetId inewsRaw segments :
  js_forEach (parseStep sheetId) inewsRaw segments =
  segments ++ imap (λ i, segmentOf sheetId (length segments + i)) inewsRaw.
Proof.
  revert segments. induction inewsRaw as [|story inewsRaw IH]; intros segments.
  - by rewrite /= app_nil_r.
  - rewrite js_forEach_cons IH parseStep_eq -assoc /= Nat.add_0_r.
    f_equal. f_equal. apply imap_ext. intros i ? _.
    rewrite length_app /=. f_equal. lia.
Qed.

(** [parse_closed_form] replaces [parse] by what its loop computes. *)
Ltac parse_closed_form := rewrite /parse parse_loop /=.

(** C25. The loop of [parse] computes, for the story at index [i], the
    segment with the sheet id, the story and its modification marker, the
    story's id ([""] when it has none), rank [i], the story's name ([""] when
    it has none) and [float = false]. *)
Theorem parse_imap sheetId inewsRaw :
  parse sheetId inewsRaw = imap (segmentOf sheetId) inewsRaw.
Proof. by rewrite /parse parse_loop. Qed.

(** C26. [parse] neither drops nor adds a story, and the segment at index
    [i] has rank [i]: the ranks are [0, 1, ..., n - 1]. *)
Theorem parse_rank sheetId inewsRaw :
  RundownSegment.rank <$> parse sheetId inewsRaw = seq 0 (length inewsRaw).
Proof.
  parse_closed_form.
  rewrite fmap_imap -(list_fmap_id (seq 0 (length inewsRaw))).
  rewrite -imap_seq_0. by apply imap_ext.
Qed.

Lemma parse_length sheetId inewsRaw :
  length (parse sheetId inewsRaw) = length inewsRaw.
Proof. parse_closed_form. by rewrite length_imap. Qed.

Lemma parse_lookup sheetId inewsRaw i :
  parse sheetId inewsRaw !! i = segmentOf sheetId i <$> inewsRaw !! i.
Proof. parse_closed_form. by rewrite list_lookup_imap. Qed.

(** A field of the segments that does not depend on the rank is read off
    the stories. *)
Lemma parse_fmap {B} (f : RundownSegment.t Story Modified → B)
    (g : IRawStory.t Story Modified → B) sheetId inewsRaw :
  (∀ i story, f (segmentOf sheetId i story) = g story) →
  f <$> parse sheetId inewsRaw = g <$> inewsRaw.
Proof.
  intros Hfg. parse_closed_form. rewrite fmap_imap -(imap_const g).
  apply imap_ext. intros. apply Hfg.
Qed.

(** C27. Order and identity: the external ids of the segments are the ids
    of the stories in input order, a missing or empty id giving [""];
    nothing is deduplicated. *)
Theorem parse_externalId sheetId inewsRaw :
  RundownSegment.externalId <$> parse sheetId inewsRaw =
  (λ story, default "" (story_id (IRawStory.story story))) <$> inewsRaw.
Proof. by apply parse_fmap. Qed.

(** C28. Every segment belongs to the sheet [parse] was given and is not
    floated. *)
Theorem parse_rundownId_float sheetId inewsRaw :
  Forall (λ seg, RundownSegment.rundownId seg = sheetId ∧
                 RundownSegment.float seg = false)
    (parse sheetId inewsRaw).
Proof.
  apply Forall_forall. intros seg. parse_closed_form.
  rewrite elem_of_lookup_imap. by intros (i & story & -> & _).
Qed.

(** Parsing is incremental: the segments of a prefix do not depend on what
    follows, and the stories that follow continue the ranks. *)
Lemma parse_app sheetId inewsRaw1 inewsRaw2 :
  parse sheetId (inewsRaw1 ++ inewsRaw2) =
  parse sheetId inewsRaw1 ++
  imap (λ i, segmentOf sheetId (length inewsRaw1 + i)) inewsRaw2.
Proof. rewrite /parse !parse_loop /=. by rewrite imap_app. Qed.

(** C29. When the stories have distinct non-empty ids, the external ids of
    the segments are distinct. *)
Theorem parse_externalId_NoDup sheetId inewsRaw :
  NoDup (story_id ∘ IRawStory.story <$> inewsRaw) →
  Forall (λ story, is_Some (story_id (IRawStory.story story))) inewsRaw →
  NoDup (RundownSegment.externalId <$> parse sheetId inewsRaw).
Proof.
  intros Hnd Hsome.
  rewrite (parse_fmap _ (default "" ∘ (story_id ∘ IRawStory.story))) //.
  rewrite list_fmap_compose.
  apply NoDup_fmap_2_strong; [|done].
  intros o1 o2 (s1 & -> & Hs1)%list_elem_of_fmap (s2 & -> & Hs2)%list_elem_of_fmap.
  rewrite Forall_forall in Hsome.
  destruct (Hsome _ Hs1) as [? E1], (Hsome _ Hs2) as [? E2].
  rewrite /= E1 E2 /=. congruence.
Qed.

(** C30. [parse] gives every story that has no id, or an empty one, the
    external id [""]: as soon as two stories lack an id, two segments have
    the same identity. *)
Theorem parse_externalId_collide sheetId inewsRaw i j story story' :
  i ≠ j → inewsRaw !! i = Some story → inewsRaw !! j = Some story' →
  story_id (IRawStory.story story) ∈ [None; Some ""] →
  story_id (IRawStory.story story') ∈ [None; Some ""] →
  ¬ NoDup (RundownSegment.externalId <$> parse sheetId inewsRaw).
Proof.
  intros Hij Hi Hj Hs Hs' Hnd. apply Hij.
  assert (∀ o : option string, o ∈ [None; Some ""] → default "" o = "") as Hdef.
  { intros o. rewrite !elem_of_cons elem_of_nil. by intros [->|[->|[]]]. }
  apply (NoDup_lookup _ i j "" Hnd);
    rewrite list_lookup_fmap parse_lookup ?Hi ?Hj; simpl; f_equal;
    by apply Hdef.
Qed.

End parse.

End ParsedINewsIntoSegments.

(** ** Examples and witnesses

    Stories are represented by their optional id and the modification
    marker by a number. *)

Definition example_stories : list (IRawStory.t (option string) nat) :=
  [IRawStory.mk (Some "s1") 10 (Some "Intro");
   IRawStory.mk None 11 None;
   IRawStory.mk (Some "") 12 (Some "Weather");
   IRawStory.mk (Some "s4") 13 (Some "")].

Lemma parse_example :
  ParsedINewsIntoSegments.parse id "sheet" example_stories =
  [RundownSegment.mk "sheet" (Some "s1") 10 "s1" 0 "Intro" false;
   RundownSegment.mk "sheet" None 11 "" 1 "" false;
   RundownSegment.mk "sheet" (Some "") 12 "" 2 "Weather" false;
   RundownSegment.mk "sheet" (Some "s4") 13 "s4" 3 "" false].
Proof. by vm_compute. Qed.

Lemma parse_externalId_NoDup_witness :
  NoDup (RundownSegment.externalId <$>
    ParsedINewsIntoSegments.parse id "sheet"
      [IRawStory.mk (Some "s1") 10 (Some "Intro");
       IRawStory.mk (Some "s2") 11 None]).
Proof.
  apply (ParsedINewsIntoSegments.parse_externalId_NoDup id "sheet"
    [IRawStory.mk (Some "s1") 10 (Some "Intro");
     IRawStory.mk (Some "s2") 11 None]); [compute_done|].
  repeat constructor; by eexists.
Defined.

Lemma parse_externalId_collide_witness :
  ¬ NoDup (RundownSegment.externalId <$>
    ParsedINewsIntoSegments.parse id "sheet" example_stories).
Proof.
  apply (ParsedINewsIntoSegments.parse_externalId_collide id "sheet"
    example_stories 1 2 (IRawStory.mk None 11 None)
    (IRawStory.mk (Some "") 12 (Some "Weather"))); compute_done.
Defined.
